(** * CarouselController: a shallow embedding of the carousel engine

    The development follows
    [frontend/src/component/Carousel/carousel/CarouselController.ts].

    Numbers.  Every quantity that the controller only ever assigns whole
    values to ([snapIndex], [previousSnapIndex], the DOM measurements
    [offsetWidth]/[offsetHeight], array indexes) is a [Z]; the continuous
    quantities handed over by the drag and tween engine (a thrown end value,
    an animated [x], the dragger position) are rationals [Q].  JavaScript
    numbers are binary64: the arithmetic that moves [snapIndex] and computes
    the snap position ([previous], [next], [getNearestRotationIndex],
    [getSnap]) rounds every result to the nearest binary64 value, a tie
    going to the even significand ([Js.round53], compared with the
    primitive floats of the kernel in [binary64_agrees_with_kernel]); whole
    numbers of magnitude up to 2^53 are exact under it.  The products of the
    layout (pixel positions and the track width) are written exactly, which
    is what binary64 computes as long as they stay within 2^53.  A state
    holds finite numbers only: where the source goes on with [NaN] or an
    infinity (a division or a remainder by zero, a result whose rounded
    magnitude reaches 2^1024) the operation returns [None] and the run is
    not followed further.

    Loops.  The two [while] loops of [getNearestRotationIndex] are run with
    an iteration budget: [None] means that the budget was exhausted, so
    "the call returns" is "some budget gives [Some _]" and "the call never
    returns" is "every budget gives [None]". *)

From Stdlib Require Import ZArith QArith Qround Qminmax Qabs Qpower Lia Lqa.
From Stdlib Require Import Floats.
From stdpp Require Import base option list strings gmap.

Local Open Scope Z_scope.

(** ** JavaScript numeric primitives *)

Module Js.

(** [a / b] on finite numbers; a zero divisor gives [Infinity] or [NaN]. *)
Definition div (a b : Q) : option Q :=
  if Qeq_bool b 0 then None else Some (a / b)%Q.

(** Rounding toward zero, the quotient behind the [%] operator. *)
Definition trunc (q : Q) : Z :=
  if Qle_bool 0 q then Qfloor q else Qceiling q.

(** [a % b]: the remainder has the sign of the dividend; [NaN] for [b = 0]. *)
Definition rem (a b : Q) : option Q :=
  if Qeq_bool b 0 then None
  else Some (a - b * inject_Z (trunc (a / b)))%Q.

(** [a % b] on whole numbers. *)
Definition remZ (a b : Z) : option Z :=
  if b =? 0 then None else Some (Z.rem a b).

(** [Math.round]: the nearest integer, a tie going up. *)
Definition Math_round (q : Q) : Z := Qfloor (q + (1 # 2))%Q.

Definition Math_floor (q : Q) : Z := Qfloor q.

Definition Math_abs (z : Z) : Z := Z.abs z.

(** [a > b] and [a < b] on finite numbers. *)
Definition gt (a b : Q) : bool := negb (Qle_bool a b).
Definition lt (a b : Q) : bool := negb (Qle_bool b a).

(** lodash [clamp(number, lower, upper)]. *)
Definition clamp (number lower upper : Q) : Q :=
  let number := if Qle_bool number upper then number else upper in
  if Qle_bool lower number then number else lower.

(** *** binary64 rounding *)

(** Two to the [e], for every integer [e]. *)
Definition pow2 (e : Z) : Q :=
  if 0 <=? e then inject_Z (2 ^ e) else / inject_Z (2 ^ (- e)).

(** The nearest integer, a tie going to the even one. *)
Definition roundEven (q : Q) : Z :=
  let f := Qfloor q in
  match (q - inject_Z f ?= 1 # 2)%Q with
  | Lt => f
  | Gt => f + 1
  | Eq => if Z.even f then f else f + 1
  end.

(** The integer part of the binary logarithm of a positive rational. *)
Definition ilog2 (q : Q) : Z :=
  let e := Z.log2 (Qnum q) - Z.log2 (Zpos (Qden q)) in
  if Qle_bool (pow2 e) q then e else e - 1.

(** The unit in the last place of a positive number: 52 binary places
    below its leading bit, and never below the subnormal spacing 2^-1074. *)
Definition ulp (a : Q) : Q := pow2 (Z.max (ilog2 a) (-1022) - 52).

(** The nearest number with a significand of 53 bits and an exponent of at
    least -1022 (round to nearest, ties to even), before the check for
    overflow. *)
Definition round53 (q : Q) : Q :=
  if Qeq_bool q 0 then 0%Q
  else
    let a := Qabs q in
    let r := (inject_Z (roundEven (a / ulp a)) * ulp a)%Q in
    Qred (if Qle_bool 0 q then r else - r).

(** A rounded value of magnitude 2^1024 or more is [Infinity]. *)
Definition finite (q : Q) : bool := negb (Qle_bool (pow2 1024) (Qabs q)).

(** The binary64 value of a real result. *)
Definition binary64 (q : Q) : option Q :=
  let r := round53 q in
  if finite r then Some r else None.

(** Rounding a whole number gives a whole number. *)
Definition roundZ (z : Z) : Z := Qfloor (round53 (inject_Z z)).

Definition binary64Z (z : Z) : option Z := Qfloor <$> binary64 (inject_Z z).

(** [a + b], [a - b] and [a * b] on whole numbers. *)
Definition plus (a b : Z) : option Z := binary64Z (a + b).
Definition minus (a b : Z) : option Z := binary64Z (a - b).
Definition times (a b : Z) : option Z := binary64Z (a * b).

(** [a / b] as JavaScript computes it. *)
Definition div64 (a b : Q) : option Q :=
  if Qeq_bool b 0 then None else binary64 (a / b).

(** The value of a primitive float of the kernel, for comparison. *)
Definition valueOf (f : float) : option Q :=
  match Prim2SF f with
  | S754_zero _ => Some 0%Q
  | S754_finite s m e =>
      Some (Qred ((if s then - inject_Z (Zpos m) else inject_Z (Zpos m))
                  * pow2 e))
  | _ => None
  end.

Definition sameValue (x y : option Q) : bool :=
  match x, y with
  | Some p, Some q => Qeq_bool p q
  | None, None => true
  | _, _ => false
  end.

(** Whether the four operations on two floats of the kernel give what the
    rounding above gives on their values. *)
Definition agrees (a b : float) : bool :=
  match valueOf a, valueOf b with
  | Some x, Some y =>
      sameValue (binary64 (x + y)) (valueOf (a + b)%float)
      && sameValue (binary64 (x - y)) (valueOf (a - b)%float)
      && sameValue (binary64 (x * y)) (valueOf (a * b)%float)
      && sameValue (div64 x y) (valueOf (a / b)%float)
  | _, _ => true
  end.

Definition samples : list float :=
  [0; 1; -1; 3; 100; 1.5;
   0x1.999999999999ap-4; -0x1.3333333333333p-2;
   4503599627370496; 4503599627370497; 9007199254740991; 9007199254740992;
   9007199254740994; -9007199254740992; 27021597764222984; 1e17; -1e17;
   0x1.fffffffffffffp+1023; 0x1p-1022; 0x1p-1074; 0x1p+970]%float.

(** [Array.prototype.indexOf] on an array of whole numbers or handles:
    the first position holding [x], or [-1]. *)
Fixpoint indexOf_from {A} `{EqDecision A} (l : list A) (x : A) (i : Z) : Z :=
  match l with
  | [] => -1
  | y :: l' => if decide (y = x) then i else indexOf_from l' x (i + 1)
  end.

Definition indexOf {A} `{EqDecision A} (l : list A) (x : A) : Z :=
  indexOf_from l x 0.

(** [l.splice(i, 1)] for an index [i >= 0]; out of range leaves [l]. *)
Definition splice1 {A} (l : list A) (i : Z) : list A :=
  delete (Z.to_nat i) l.

(** [while (cond) body] with an iteration budget. *)
Fixpoint while {State : Type} (fuel : nat) (cond : State -> bool)
    (body : State -> State) (s : State) : option State :=
  if cond s then
    match fuel with
    | O => None
    | S fuel' => while fuel' cond body (body s)
    end
  else Some s.

End Js.

(** ** The nearest-rotation computation *)

(** [getNearestRotationIndex(index, newIndex, total)].  The second loop
    tests [newIndex] and updates [updatedNewIndex], as the source does.
    Every sum and difference is rounded to binary64.  A sum that leaves the
    finite range inside a loop is [-Infinity] in the source and a large
    negative number here: the loop goes on in both. *)
Definition getNearestRotationIndex (fuel : nat) (index newIndex total : Z)
    : option Z :=
  curIndex ← Js.while fuel (fun curIndex => curIndex <? 0)
                           (fun curIndex => Js.roundZ (curIndex + total))
                           index;
  updatedNewIndex ← Js.while fuel (fun _ => newIndex <? 0)
                           (fun updatedNewIndex =>
                              Js.roundZ (updatedNewIndex + total))
                           newIndex;
  d ← Js.minus curIndex updatedNewIndex;
  let diff := Js.Math_abs d in
  if Js.gt (inject_Z diff) (inject_Z total / 2)
  then
    rest ← Js.minus total diff;
    if curIndex >? updatedNewIndex
    then Js.plus index rest
    else Js.minus index rest
  else
    if curIndex <? updatedNewIndex
    then Js.plus index diff
    else Js.minus index diff.

(** ** Data model *)

Module CarouselController.

(** A DOM element is a handle; what the browser reports for it is read
    from a [Dom] snapshot at the time of a measurement. *)
Definition HTMLElement := nat.

Record Dom := {
  offsetWidth : HTMLElement -> Z;
  offsetHeight : HTMLElement -> Z
}.

(** Inline styles and tweened properties written by the controller, keyed
    by element and property name. *)
Inductive StyleValue :=
| Px (z : Z)
| Num (q : Q)
| Keyword (s : string).

Inductive Ease :=
| Power3_easeInOut
| Linear_easeNone
| CustomEase (id : nat).

(** [CarouselOptions.ts] *)
Record GotoAnimation := {
  ease : Ease;
  duration : Q
}.

Record CarouselOptions := {
  hideOverflowItems : bool;
  isInfinite : bool;
  isAutoplay : bool;
  autoplayTimeout : Z;
  gotoAnimation : GotoAnimation
}.

(** [Partial<CarouselOptions>] *)
Record PartialOptions := {
  p_hideOverflowItems : option bool;
  p_isInfinite : option bool;
  p_isAutoplay : option bool;
  p_autoplayTimeout : option Z;
  p_gotoAnimation : option GotoAnimation
}.

(** [CarouselEvent] with the payload the controller attaches. *)
Inductive CarouselEvent :=
| CHANGE
| ITEM_IN_VIEW (index : Z)
| ITEM_IN_VIEW_PROGRESS (progress : Q) (index : Z)
| ITEM_OUT_VIEW (index : Z).

(** The paused, endlessly repeating tween built by [createAnimation]:
    every item moves by [an_by]; [an_progress] is the progress last set. *)
Record Animation := {
  an_targets : list HTMLElement;
  an_by : Z;
  an_progress : Q
}.

Record Bounds := {
  maxX : Z;
  minX : Z
}.

(** The [Draggable] created on the proxy element, with its position. *)
Record Draggable := {
  dr_target : HTMLElement;
  dr_trigger : HTMLElement;
  dr_throwProps : bool;
  dr_overshootTolerance : Z;
  dr_bounds : option Bounds;
  dr_x : Q
}.

(** A tween of the dragger position created by [goto]. *)
Record Tween := {
  tw_x : Z;
  tw_duration : Q;
  tw_delay : Q;
  tw_ease : Ease;
  tw_started : bool
}.

(** The fields of the class, followed by what it acts on: the inline
    styles, the tweens it has created on the dragger, the running
    interval timers and the events dispatched so far (oldest first). *)
Record Carousel := mkCarousel {
  wrapperElement : HTMLElement;
  dragElement : HTMLElement;
  carouselItems : list HTMLElement;
  dragProxy : HTMLElement;
  itemWidth : Z;
  itemHeight : Z;
  viewWidth : Z;
  animation : option Animation;
  dragger : option Draggable;
  snapIndex : Z;
  previousSnapIndex : Z;
  inViewIndexes : list Z;
  autoplayInterval : option nat;
  options : CarouselOptions;
  styles : gmap (HTMLElement * string) StyleValue;
  tweens : list Tween;
  timers : list nat;
  events : list CarouselEvent
}.

Definition set_itemWidth (v : Z) (c : Carousel) : Carousel :=
  mkCarousel (wrapperElement c) (dragElement c) (carouselItems c)
    (dragProxy c) v (itemHeight c) (viewWidth c) (animation c) (dragger c)
    (snapIndex c) (previousSnapIndex c) (inViewIndexes c)
    (autoplayInterval c) (options c) (styles c) (tweens c) (timers c)
    (events c).

Definition set_itemHeight (v : Z) (c : Carousel) : Carousel :=
  mkCarousel (wrapperElement c) (dragElement c) (carouselItems c)
    (dragProxy c) (itemWidth c) v (viewWidth c) (animation c) (dragger c)
    (snapIndex c) (previousSnapIndex c) (inViewIndexes c)
    (autoplayInterval c) (options c) (styles c) (tweens c) (timers c)
    (events c).

Definition set_viewWidth (v : Z) (c : Carousel) : Carousel :=
  mkCarousel (wrapperElement c) (dragElement c) (carouselItems c)
    (dragProxy c) (itemWidth c) (itemHeight c) v (animation c) (dragger c)
    (snapIndex c) (previousSnapIndex c) (inViewIndexes c)
    (autoplayInterval c) (options c) (styles c) (tweens c) (timers c)
    (events c).

Definition set_animation (v : option Animation) (c : Carousel) : Carousel :=
  mkCarousel (wrapperElement c) (dragElement c) (carouselItems c)
    (dragProxy c) (itemWidth c) (itemHeight c) (viewWidth c) v (dragger c)
    (snapIndex c) (previousSnapIndex c) (inViewIndexes c)
    (autoplayInterval c) (options c) (styles c) (tweens c) (timers c)
    (events c).

Definition set_dragger (v : option Draggable) (c : Carousel) : Carousel :=
  mkCarousel (wrapperElement c) (dragElement c) (carouselItems c)
    (dragProxy c) (itemWidth c) (itemHeight c) (viewWidth c) (animation c) v
    (snapIndex c) (previousSnapIndex c) (inViewIndexes c)
    (autoplayInterval c) (options c) (styles c) (tweens c) (timers c)
    (events c).

Definition set_snapIndex (v : Z) (c : Carousel) : Carousel :=
  mkCarousel (wrapperElement c) (dragElement c) (carouselItems c)
    (dragProxy c) (itemWidth c) (itemHeight c) (viewWidth c) (animation c)
    (dragger c) v (previousSnapIndex c) (inViewIndexes c)
    (autoplayInterval c) (options c) (styles c) (tweens c) (timers c)
    (events c).

Definition set_previousSnapIndex (v : Z) (c : Carousel) : Carousel :=
  mkCarousel (wrapperElement c) (dragElement c) (carouselItems c)
    (dragProxy c) (itemWidth c) (itemHeight c) (viewWidth c) (animation c)
    (dragger c) (snapIndex c) v (inViewIndexes c) (autoplayInterval c)
    (options c) (styles c) (tweens c) (timers c) (events c).

Definition set_inViewIndexes (v : list Z) (c : Carousel) : Carousel :=
  mkCarousel (wrapperElement c) (dragElement c) (carouselItems c)
    (dragProxy c) (itemWidth c) (itemHeight c) (viewWidth c) (animation c)
    (dragger c) (snapIndex c) (previousSnapIndex c) v (autoplayInterval c)
    (options c) (styles c) (tweens c) (timers c) (events c).

Definition set_autoplayInterval (v : option nat) (c : Carousel) : Carousel :=
  mkCarousel (wrapperElement c) (dragElement c) (carouselItems c)
    (dragProxy c) (itemWidth c) (itemHeight c) (viewWidth c) (animation c)
    (dragger c) (snapIndex c) (previousSnapIndex c) (inViewIndexes c) v
    (options c) (styles c) (tweens c) (timers c) (events c).

Definition set_styles (v : gmap (HTMLElement * string) StyleValue)
    (c : Carousel) : Carousel :=
  mkCarousel (wrapperElement c) (dragElement c) (carouselItems c)
    (dragProxy c) (itemWidth c) (itemHeight c) (viewWidth c) (animation c)
    (dragger c) (snapIndex c) (previousSnapIndex c) (inViewIndexes c)
    (autoplayInterval c) (options c) v (tweens c) (timers c) (events c).

Definition set_tweens (v : list Tween) (c : Carousel) : Carousel :=
  mkCarousel (wrapperElement c) (dragElement c) (carouselItems c)
    (dragProxy c) (itemWidth c) (itemHeight c) (viewWidth c) (animation c)
    (dragger c) (snapIndex c) (previousSnapIndex c) (inViewIndexes c)
    (autoplayInterval c) (options c) (styles c) v (timers c) (events c).

Definition set_timers (v : list nat) (c : Carousel) : Carousel :=
  mkCarousel (wrapperElement c) (dragElement c) (carouselItems c)
    (dragProxy c) (itemWidth c) (itemHeight c) (viewWidth c) (animation c)
    (dragger c) (snapIndex c) (previousSnapIndex c) (inViewIndexes c)
    (autoplayInterval c) (options c) (styles c) (tweens c) v (events c).

Definition set_events (v : list CarouselEvent) (c : Carousel) : Carousel :=
  mkCarousel (wrapperElement c) (dragElement c) (carouselItems c)
    (dragProxy c) (itemWidth c) (itemHeight c) (viewWidth c) (animation c)
    (dragger c) (snapIndex c) (previousSnapIndex c) (inViewIndexes c)
    (autoplayInterval c) (options c) (styles c) (tweens c) (timers c) v.

(** ** Operations *)

(** [this.carouselItems.length] *)
Definition itemCount (c : Carousel) : Z := Z.of_nat (length (carouselItems c)).

(** [EventDispatcher.dispatchEvent]: the event is appended to the log. *)
Definition dispatchEvent (e : CarouselEvent) (c : Carousel) : Carousel :=
  set_events (events c ++ [e]) c.

Definition setStyle (el : HTMLElement) (prop : string) (v : StyleValue)
    (c : Carousel) : Carousel :=
  set_styles (<[(el, prop) := v]> (styles c)) c.

(** The defaults of the [options] field. *)
Definition defaultOptions : CarouselOptions := {|
  hideOverflowItems := true;
  isInfinite := true;
  isAutoplay := false;
  autoplayTimeout := 5000;
  gotoAnimation := {| ease := Power3_easeInOut; duration := 8 # 10 |}
|}.

(** [Object.assign(this.options, options)] *)
Definition assignOptions (o : CarouselOptions) (p : PartialOptions)
    : CarouselOptions := {|
  hideOverflowItems := default (hideOverflowItems o) (p_hideOverflowItems p);
  isInfinite := default (isInfinite o) (p_isInfinite p);
  isAutoplay := default (isAutoplay o) (p_isAutoplay p);
  autoplayTimeout := default (autoplayTimeout o) (p_autoplayTimeout p);
  gotoAnimation := default (gotoAnimation o) (p_gotoAnimation p)
|}.

(** The getter [index]. *)
Definition index (c : Carousel) : option Z :=
  let total := itemCount c in
  r ← Js.remZ (snapIndex c) total;
  Js.remZ (r + total) total.

(** [setInterval] hands out a handle that no running timer has. *)
Definition freshTimer (running : list nat) : nat := S (foldr Nat.max O running).

Definition startAutoplay (c : Carousel) : Carousel :=
  if isAutoplay (options c)
  then
    let id := freshTimer (timers c) in
    set_autoplayInterval (Some id) (set_timers (id :: timers c) c)
  else c.

Definition stopAutoplay (c : Carousel) : Carousel :=
  match autoplayInterval c with
  | Some id =>
      set_autoplayInterval None
        (set_timers (filter (fun t => t <> id) (timers c)) c)
  | None => c
  end.

(** [goto(index, duration = options.gotoAnimation.duration, delay = 0)]:
    autoplay is stopped and a tween of the dragger toward
    [index * -1 * itemWidth] is created; its callbacks are [gotoOnStart],
    [gotoOnUpdate] and [gotoOnComplete] below. *)
Definition goto (index : Z) (duration delay : option Q) (c : Carousel)
    : Carousel :=
  let c := stopAutoplay c in
  set_tweens
    (tweens c ++
     [{| tw_x := index * -1 * itemWidth c;
         tw_duration :=
           default (CarouselController.duration (gotoAnimation (options c)))
                   duration;
         tw_delay := default 0%Q delay;
         tw_ease := ease (gotoAnimation (options c));
         tw_started := false |}])
    c.

(** [onStart] of the tween of [goto]. *)
Definition gotoOnStart (c : Carousel) : Carousel :=
  dispatchEvent CHANGE c.

(** [onComplete] of the tween of [goto]. *)
Definition gotoOnComplete (c : Carousel) : Carousel :=
  startAutoplay c.

Definition setAnimationProgress (progress : Q) (c : Carousel) : Carousel :=
  match animation c with
  | Some a =>
      set_animation
        (Some {| an_targets := an_targets a; an_by := an_by a;
                 an_progress := progress |}) c
  | None => c
  end.

(** [onUpdateProgress]; reading [this.dragger.x] needs the dragger. *)
Definition onUpdateProgress (c : Carousel) : option Carousel :=
  d ← dragger c;
  progress ← Js.div (dr_x d) (inject_Z (itemWidth c * itemCount c));
  Some (setAnimationProgress progress c).

(** [onUpdate] of the tween of [goto]. *)
Definition gotoOnUpdate (c : Carousel) : option Carousel :=
  d ← dragger c;
  onUpdateProgress (setStyle (dragProxy c) "x" (Num (dr_x d)) c).

(** [previous(moveRow = false)].  [None]: the new [snapIndex] is not a
    finite number; a row step over items of width 0 is [NaN] or an
    infinity, which the source stores. *)
Definition previous (moveRow : bool) (c : Carousel) : option Carousel :=
  step ← (if moveRow
          then Js.Math_floor <$>
                 Js.div64 (inject_Z (viewWidth c)) (inject_Z (itemWidth c))
          else Some 1);
  s ← Js.minus (snapIndex c) step;
  let c := set_snapIndex s c in
  Some (goto (snapIndex c) None None c).

(** [next(moveRow = false)], with the same [None]. *)
Definition next (moveRow : bool) (c : Carousel) : option Carousel :=
  step ← (if moveRow
          then Js.Math_floor <$>
                 Js.div64 (inject_Z (viewWidth c)) (inject_Z (itemWidth c))
          else Some 1);
  s ← Js.plus (snapIndex c) step;
  let c := set_snapIndex s c in
  Some (goto (snapIndex c) None None c).

(** [activate(index)]; [fuel] bounds the loops of the rotation search. *)
Definition activate (fuel : nat) (index : Z) (c : Carousel)
    : option Carousel :=
  s ← getNearestRotationIndex fuel (snapIndex c) index (itemCount c);
  let c := set_snapIndex s c in
  Some (goto (snapIndex c) None None c).

(** *** Geometry *)

Definition setItemDimensions (dom : Dom) (c : Carousel) : Carousel :=
  let c := set_viewWidth (offsetWidth dom (wrapperElement c)) c in
  match carouselItems c with
  | [] => c
  | first :: rest =>
      let c := set_itemWidth (offsetWidth dom first) c in
      set_itemHeight
        (foldl Z.max (offsetHeight dom first) (offsetHeight dom <$> rest)) c
  end.

Definition setWrapperHeight (c : Carousel) : Carousel :=
  let c := setStyle (wrapperElement c) "height" (Px (itemHeight c)) c in
  setStyle (dragElement c) "height" (Px (itemHeight c)) c.

(** The zero-duration stagger: item number [i] is put at
    [itemWidth * (i + 1)]. *)
Fixpoint staggerX (items : list HTMLElement) (i : Z) (c : Carousel)
    : Carousel :=
  match items with
  | [] => c
  | el :: items' =>
      staggerX items' (i + 1) (setStyle el "x" (Px (itemWidth c * (i + 1))) c)
  end.

Definition setItemPositions (c : Carousel) : Carousel :=
  let c := staggerX (carouselItems c) 0 c in
  setStyle (dragElement c) "left" (Px (- itemWidth c)) c.

Definition createAnimation (c : Carousel) : Carousel :=
  set_animation
    (Some {| an_targets := carouselItems c;
             an_by := itemWidth c * itemCount c;
             an_progress := 0 |}) c.

Definition getBounds (c : Carousel) : option Bounds :=
  if isInfinite (options c) then None
  else Some {| maxX := 0;
               minX := - (itemWidth c * itemCount c - viewWidth c) |}.

Definition createDraggable (c : Carousel) : Carousel :=
  set_dragger
    (Some {| dr_target := dragProxy c;
             dr_trigger := dragElement c;
             dr_throwProps := true;
             dr_overshootTolerance := if isInfinite (options c) then 1 else 0;
             dr_bounds := getBounds c;
             dr_x := 0 |}) c.

(** [updateSize()], reading the live measurements from [dom]. *)
Definition updateSize (dom : Dom) (c : Carousel) : Carousel :=
  let c := setItemDimensions dom c in
  let c := setWrapperHeight c in
  let c := setItemPositions c in
  match dragger c with
  | Some _ =>
      let c := createAnimation c in
      goto (snapIndex c) (Some (1 # 10)) (Some 0%Q) c
  | None => c
  end.

(** *** In-view tracking *)

Definition addInViewItem (target : HTMLElement) (currentX : Q) (c : Carousel)
    : option Carousel :=
  let itemIndex := Js.indexOf (carouselItems c) target in
  let inViewIndex := Js.indexOf (inViewIndexes c) itemIndex in
  let c :=
    if inViewIndex <? 0
    then
      let c := dispatchEvent (ITEM_IN_VIEW itemIndex) c in
      set_inViewIndexes (inViewIndexes c ++ [itemIndex]) c
    else c in
  q ← Js.div currentX (inject_Z (viewWidth c + itemWidth c));
  let progress := Js.clamp q 0 1 in
  Some (dispatchEvent (ITEM_IN_VIEW_PROGRESS progress itemIndex) c).

Definition removeInViewItem (target : HTMLElement) (c : Carousel) : Carousel :=
  let itemIndex := Js.indexOf (carouselItems c) target in
  let inViewIndex := Js.indexOf (inViewIndexes c) itemIndex in
  if inViewIndex >? -1
  then
    let c := set_inViewIndexes (Js.splice1 (inViewIndexes c) inViewIndex) c in
    dispatchEvent (ITEM_OUT_VIEW itemIndex) c
  else c.

(** The condition of [getAnimationModifier] on the wrapped position. *)
Definition inViewRange (newX : Q) (c : Carousel) : bool :=
  Js.gt newX 0 && Js.lt newX (inject_Z (viewWidth c + itemWidth c)).

(** [getAnimationModifier(x, target)]: the wrapped position and the state. *)
Definition getAnimationModifier (x : Q) (target : HTMLElement) (c : Carousel)
    : option (Q * Carousel) :=
  newX ← Js.rem x (inject_Z (itemWidth c * itemCount c));
  let c :=
    if hideOverflowItems (options c)
    then
      setStyle target "visibility"
        (Keyword
           (if Js.gt (newX - inject_Z (itemWidth c)) (inject_Z (viewWidth c))
            then "hidden" else "visible")) c
    else c in
  c ← (if inViewRange newX c
       then addInViewItem target newX c
       else Some (removeInViewItem target c));
  Some (newX, c).

(** *** Drag and snap *)

(** [getSnap(endValue)]: the settle position and the state.  The quotient
    and the product are binary64 operations; [Math.round] and the changes
    of sign are exact. *)
Definition getSnap (endValue : Q) (c : Carousel) : option (Z * Carousel) :=
  q ← Js.div64 endValue (inject_Z (itemWidth c));
  let c := set_snapIndex (Js.Math_round q * -1) c in
  position ← Js.times (snapIndex c * -1) (itemWidth c);
  Some (position, c).

Definition onThrowComplete (c : Carousel) : Carousel :=
  let c :=
    if bool_decide (snapIndex c <> previousSnapIndex c)
    then dispatchEvent CHANGE c
    else c in
  let c := set_previousSnapIndex (snapIndex c) c in
  startAutoplay c.

(** [onDragStart] *)
Definition onDragStart (c : Carousel) : Carousel := stopAutoplay c.

(** *** Construction *)

(** [new CarouselController(wrapperElement, dragElement, carouselItems,
    options)]; [proxy] is the element made for the drag proxy.  The resize
    listener and the deferred first progress update are left to the
    caller ([updateSize] and [setAnimationProgress]). *)
Definition new (dom : Dom) (wrapper drag : HTMLElement)
    (items : list HTMLElement) (proxy : HTMLElement) (o : PartialOptions)
    : Carousel :=
  let c :=
    {| wrapperElement := wrapper; dragElement := drag;
       carouselItems := items; dragProxy := proxy;
       itemWidth := 0; itemHeight := 0; viewWidth := 0;
       animation := None; dragger := None;
       snapIndex := 0; previousSnapIndex := 0;
       inViewIndexes := []; autoplayInterval := None;
       options := assignOptions defaultOptions o;
       styles := ∅; tweens := []; timers := []; events := [] |} in
  let c := updateSize dom c in
  let c := createAnimation c in
  let c := createDraggable c in
  startAutoplay c.

(** *** The tween engine, as far as the controller observes it *)

Definition started (tw : Tween) : Tween :=
  {| tw_x := tw_x tw; tw_duration := tw_duration tw; tw_delay := tw_delay tw;
     tw_ease := tw_ease tw; tw_started := true |}.

(** The oldest tween that has not started is marked as started. *)
Fixpoint startFirst (tws : list Tween) : option (list Tween) :=
  match tws with
  | [] => None
  | tw :: tws' =>
      if tw_started tw
      then cons tw <$> startFirst tws'
      else Some (started tw :: tws')
  end.

(** The number of tweens of [goto] that have not started yet. *)
Definition pending (c : Carousel) : nat :=
  length (filter (fun tw => tw_started tw = false) (tweens c)).

(** The oldest tween of [goto] that has not started yet starts: its
    [onStart] callback runs. *)
Definition tweenStart (c : Carousel) : option Carousel :=
  tws ← startFirst (tweens c);
  Some (gotoOnStart (set_tweens tws c)).

(** [n] calls of [next()] in a row. *)
Fixpoint nextTimes (n : nat) (c : Carousel) : option Carousel :=
  match n with
  | O => Some c
  | S n' => c' ← next false c; nextTimes n' c'
  end.

(** The number of [CHANGE] events in a log. *)
Definition isChange (e : CarouselEvent) : bool :=
  match e with
  | CHANGE => true
  | _ => false
  end.

Definition changeCount (log : list CarouselEvent) : nat :=
  length (filter (fun e => isChange e = true) log).

End CarouselController.

Export CarouselController.

(** ** The rotation of fewest steps, as the specification words it *)

(** Both indexes are normalised into [[0, total)]; the move is
    [total - diff] across the boundary when [diff > total / 2], and [diff]
    toward the target otherwise. *)
Definition nearestRotation_spec (index target total : Z) : Z :=
  let normalizedCurrent := index mod total in
  let normalizedTarget := target mod total in
  let diff := Z.abs (normalizedCurrent - normalizedTarget) in
  if total <? 2 * diff
  then
    if normalizedCurrent >? normalizedTarget
    then index + (total - diff)
    else index - (total - diff)
  else
    if normalizedCurrent <? normalizedTarget
    then index + diff
    else index - diff.

(** ** Definitions used in the statements *)

(** The body of [getNearestRotationIndex] after its two loops, every sum
    and difference taken exactly. *)
Definition rotationStep (index curIndex updatedNewIndex total : Z) : Z :=
  let diff := Z.abs (curIndex - updatedNewIndex) in
  if total <? 2 * diff
  then
    if curIndex >? updatedNewIndex
    then index + (total - diff)
    else index - (total - diff)
  else
    if curIndex <? updatedNewIndex
    then index + diff
    else index - diff.


(** The tween that [goto(index)] creates with its default arguments. *)
Definition gotoTween (index : Z) (c : Carousel) : Tween :=
  {| tw_x := index * -1 * itemWidth c;
     tw_duration := duration (gotoAnimation (options c));
     tw_delay := 0;
     tw_ease := ease (gotoAnimation (options c));
     tw_started := false |}.

(** What a change of inline styles or of the measurements leaves alone. *)
Definition sameNavigation (c c' : Carousel) : Prop :=
  snapIndex c' = snapIndex c /\
  previousSnapIndex c' = previousSnapIndex c /\
  carouselItems c' = carouselItems c /\
  wrapperElement c' = wrapperElement c /\
  dragElement c' = dragElement c /\
  options c' = options c /\
  animation c' = animation c /\
  dragger c' = dragger c /\
  tweens c' = tweens c /\
  events c' = events c /\
  inViewIndexes c' = inViewIndexes c.

Definition sameGeometry (c c' : Carousel) : Prop :=
  itemWidth c' = itemWidth c /\
  itemHeight c' = itemHeight c /\
  viewWidth c' = viewWidth c.

(** The state that [updateSize] measures and lays out before it looks at
    the dragger. *)
Definition measured (dom : Dom) (c : Carousel) : Carousel :=
  setItemPositions (setWrapperHeight (setItemDimensions dom c)).



(** ** Sample carousels *)

(** A page whose viewport is 250 wide and whose items are 100 by 60. *)
Definition sampleDom : Dom := {|
  offsetWidth := fun el => if decide (el = O) then 250 else 100;
  offsetHeight := fun el => if decide (el = O) then 0 else 60
|}.

Definition noOptions : PartialOptions := {|
  p_hideOverflowItems := None; p_isInfinite := None; p_isAutoplay := None;
  p_autoplayTimeout := None; p_gotoAnimation := None
|}.

(** What [Carousel.js] passes. *)
Definition boundedOptions : PartialOptions := {|
  p_hideOverflowItems := None; p_isInfinite := Some false;
  p_isAutoplay := None; p_autoplayTimeout := None; p_gotoAnimation := None
|}.

(** Five items in the viewport [0], dragged through element [6], with the
    proxy [7]. *)
Definition carousel5 : Carousel :=
  new sampleDom 0%nat 6%nat [1; 2; 3; 4; 5]%nat 7%nat noOptions.

Definition bounded5 : Carousel :=
  new sampleDom 0%nat 6%nat [1; 2; 3; 4; 5]%nat 7%nat boundedOptions.

(** Three items that are 3 wide. *)
Definition narrowDom : Dom := {|
  offsetWidth := fun el => if decide (el = O) then 250 else 3;
  offsetHeight := fun el => if decide (el = O) then 0 else 60
|}.

Definition narrow3 : Carousel :=
  new narrowDom 0%nat 6%nat [1; 2; 3]%nat 7%nat noOptions.

(** Ten items. *)
Definition carousel10 : Carousel :=
  new sampleDom 0%nat 11%nat [1; 2; 3; 4; 5; 6; 7; 8; 9; 10]%nat 12%nat
    noOptions.

(** ** Runs of the animation and disposal *)


(** A render of the looping animation calls [getAnimationModifier] once per
    target; [modifierRun] is a sequence of such calls, oldest first. *)
Fixpoint modifierRun (calls : list (Q * HTMLElement)) (c : Carousel)
    : option Carousel :=
  match calls with
  | [] => Some c
  | (x, target) :: calls' =>
      '(_, c') ← getAnimationModifier x target c;
      modifierRun calls' c'
  end.

(** The controller with what it holds besides its own fields: whether the
    resize listener is attached, whether the [Draggable] has been killed and
    whether the event dispatcher has been disposed of. *)
Record Mounted := {
  controller : Carousel;
  resizeListener : bool;
  draggerKilled : bool;
  dispatcherDisposed : bool
}.

(** The constructor, with the listener it attaches. *)
Definition mount (dom : Dom) (wrapper drag : HTMLElement)
    (items : list HTMLElement) (proxy : HTMLElement) (o : PartialOptions)
    : Mounted :=
  {| controller := new dom wrapper drag items proxy o;
     resizeListener := true;
     draggerKilled := false;
     dispatcherDisposed := false |}.

(** [dispose()]: [killTweensOf(this.dragger)] removes the tweens of [goto]. *)
Definition dispose (m : Mounted) : Mounted :=
  let c := stopAutoplay (controller m) in
  let killed :=
    match dragger c with
    | Some _ => true
    | None => draggerKilled m
    end in
  let c :=
    match animation c with
    | Some _ => set_animation None c
    | None => c
    end in
  let c := set_tweens [] c in
  {| controller := c;
     resizeListener := false;
     draggerKilled := killed;
     dispatcherDisposed := true |}.

(** What no navigation, drag or animation step changes about autoplay when
    it is switched off. *)
Definition noAutoplay (c : Carousel) : Prop :=
  isAutoplay (options c) = false /\ timers c = [] /\ autoplayInterval c = None.

(** What leaves the autoplay timer alone. *)
Definition sameAutoplay (c c' : Carousel) : Prop :=
  options c' = options c /\
  timers c' = timers c /\
  autoplayInterval c' = autoplayInterval c.

(** Every entry of [inViewIndexes] is a result of [indexOf] on the items,
    and none occurs twice. *)
Definition inViewInvariant (c : Carousel) : Prop :=
  NoDup (inViewIndexes c) /\
  Forall (fun j => -1 <= j < itemCount c) (inViewIndexes c).

(** Three items with autoplay switched on. *)
Definition autoplayOptions : PartialOptions := {|
  p_hideOverflowItems := None; p_isInfinite := None;
  p_isAutoplay := Some true; p_autoplayTimeout := None;
  p_gotoAnimation := None
|}.

Definition autoplay3 : Carousel :=
  new sampleDom 0%nat 6%nat [1; 2; 3]%nat 7%nat autoplayOptions.

(** * Properties *)


(** ** binary64 on whole numbers *)

(** The rounding agrees with the primitive floats of the kernel, here at
    sums, a quotient and a product beyond 2^53, at a subnormal tie, and at
    the overflow threshold. *)
Example binary64_agrees_with_kernel :
  Js.binary64 (inject_Z (2 ^ 53 + 1))
  = Js.valueOf (9007199254740992 + 1)%float /\
  Js.binary64 (inject_Z (2 ^ 53 + 3))
  = Js.valueOf (9007199254740992 + 3)%float /\
  Js.binary64 (inject_Z (- 10 ^ 17 + 5)) = Js.valueOf (-1e17 + 5)%float /\
  Js.binary64 (-27021597764222984 / 3)
  = Js.valueOf (-27021597764222984 / 3)%float /\
  Js.binary64 (inject_Z (9007199254740994 * -1 * 3))
  = Js.valueOf (9007199254740994 * -1 * 3)%float /\
  Js.binary64 (250 / 100) = Js.valueOf (250 / 100)%float /\
  Js.binary64 (1 / 3) = Js.valueOf (1 / 3)%float /\
  Js.binary64 (Js.pow2 (-1074) * (3 # 2))
  = Js.valueOf (0x1p-1074 * 1.5)%float /\
  Js.binary64 (Js.pow2 1024 - Js.pow2 970)
  = Js.valueOf (0x1.fffffffffffffp1023 + 0x1p970)%float /\
  Js.binary64 (Js.pow2 1024 - Js.pow2 970 - 1)
  = Js.valueOf (0x1.fffffffffffffp1023 + 0x1.fffffffffffffp969)%float.
Proof. vm_compute. repeat split. Qed.

(** The same for the sum, the difference, the product and the quotient of
    every pair of the sample values: whole numbers on both sides of 2^53,
    fractions, the largest and the smallest normal numbers, subnormal
    numbers and zero. *)
Example binary64_agrees_on_samples :
  forallb (fun a => forallb (Js.agrees a) Js.samples) Js.samples = true.
Proof. vm_compute. reflexivity. Qed.

Lemma pow2_pos (e : Z) : (0 < Js.pow2 e)%Q.
Proof.
  unfold Js.pow2. destruct (0 <=? e) eqn:E.
  - apply Z.leb_le in E.
    assert (0 < 2 ^ e) by (apply Z.pow_pos_nonneg; lia).
    unfold Qlt, inject_Z. simpl. lia.
  - apply Z.leb_gt in E.
    assert (0 < 2 ^ (- e)) by (apply Z.pow_pos_nonneg; lia).
    apply Qinv_lt_0_compat. unfold Qlt, inject_Z. simpl. lia.
Qed.

Lemma roundEven_whole (q : Q) (m : Z) :
  (q == inject_Z m)%Q -> Js.roundEven q = m.
Proof.
  intros Hq. unfold Js.roundEven.
  rewrite (Qfloor_comp _ _ Hq), Qfloor_Z.
  destruct (Qcompare_spec (q - inject_Z m) (1 # 2)) as [H | H | H];
    [rewrite Hq in H; lra | reflexivity | rewrite Hq in H; lra].
Qed.

Lemma ilog2_whole (n : Z) : 0 < n -> Js.ilog2 (inject_Z n) = Z.log2 n.
Proof.
  intros Hn. unfold Js.ilog2. simpl. rewrite Z.sub_0_r.
  pose proof (Z.log2_nonneg n) as Hl.
  destruct (Z.log2_spec n Hn) as [Hlo _].
  unfold Js.pow2. destruct (0 <=? Z.log2 n) eqn:E; [|apply Z.leb_gt in E; lia].
  replace (Qle_bool (inject_Z (2 ^ Z.log2 n)) (inject_Z n)) with true;
    [reflexivity|].
  symmetry. apply Qle_bool_iff. unfold Qle, inject_Z. simpl. lia.
Qed.

(** Whole numbers of magnitude up to 2^53 are binary64 numbers. *)
Lemma round53_whole (z : Z) :
  Z.abs z <= 2 ^ 53 -> (Js.round53 (inject_Z z) == inject_Z z)%Q.
Proof.
  intros Hz. unfold Js.round53, Js.ulp.
  destruct (Qeq_bool (inject_Z z) 0) eqn:E0.
  - apply Qeq_bool_iff in E0. symmetry. exact E0.
  - apply Qeq_bool_neq in E0.
    assert (Hnz : z <> 0).
    { intros ->. apply E0. reflexivity. }
    rewrite Qred_correct.
    change (Qabs (inject_Z z)) with (inject_Z (Z.abs z)).
    set (n := Z.abs z) in *.
    assert (Hn : 0 < n) by (unfold n; lia).
    rewrite (ilog2_whole n Hn).
    pose proof (Z.log2_nonneg n) as Hl0.
    destruct (Z.log2_spec n Hn) as [Hlo Hhi].
    assert (Hl53 : Z.log2 n <= 53).
    { rewrite <- (Z.log2_pow2 53) by lia. apply Z.log2_le_mono. exact Hz. }
    rewrite Z.max_l by lia.
    set (L := Z.log2 n) in *.
    assert (Hm : exists m : Z,
               (inject_Z n / Js.pow2 (L - 52) == inject_Z m)%Q /\
               (inject_Z m * Js.pow2 (L - 52) == inject_Z n)%Q).
    { unfold Js.pow2. destruct (0 <=? L - 52) eqn:E.
      - apply Z.leb_le in E.
        assert (HL : L = 52 \/ L = 53) by lia.
        destruct HL as [HL | HL]; rewrite HL in *.
        + exists n. change (2 ^ (52 - 52)) with 1. split; field.
        + assert (Hn53 : n = 2 ^ 53) by lia.
          exists (2 ^ 52). rewrite Hn53. split; reflexivity.
      - apply Z.leb_gt in E.
        set (P := 2 ^ (- (L - 52))).
        assert (HP : 0 < P) by (apply Z.pow_pos_nonneg; lia).
        assert (HPq : ~ (inject_Z P == 0)%Q).
        { unfold Qeq, inject_Z. simpl. lia. }
        exists (n * P). rewrite inject_Z_mult. split; field; exact HPq. }
    destruct Hm as (m & Hdiv & Hmul).
    rewrite (roundEven_whole _ m Hdiv).
    destruct (Qle_bool 0 (inject_Z z)) eqn:Es; rewrite Hmul.
    + apply Qle_bool_iff in Es. unfold Qle, inject_Z in Es. simpl in Es.
      unfold n. rewrite Z.abs_eq by lia. reflexivity.
    + assert (Hneg : z < 0).
      { destruct (Z_lt_le_dec z 0) as [H|H]; [exact H|].
        assert (Hle : Qle_bool 0 (inject_Z z) = true).
        { apply Qle_bool_iff. unfold Qle, inject_Z. simpl. lia. }
        congruence. }
      unfold n. rewrite Z.abs_neq by lia.
      rewrite inject_Z_opp. ring.
Qed.

Lemma finite_whole (q : Q) (z : Z) :
  (q == inject_Z z)%Q -> Z.abs z <= 2 ^ 53 -> Js.finite q = true.
Proof.
  intros Hq Hz. unfold Js.finite. apply negb_true_iff.
  destruct (Qle_bool (Js.pow2 1024) (Qabs q)) eqn:E; [|reflexivity].
  apply Qle_bool_iff in E. rewrite Hq in E.
  change (Qabs (inject_Z z)) with (inject_Z (Z.abs z)) in E.
  change (Js.pow2 1024) with (inject_Z (2 ^ 1024)) in E.
  rewrite <- Zle_Qle in E.
  assert (2 ^ 53 < 2 ^ 1024) by (apply Z.pow_lt_mono_r; lia).
  lia.
Qed.

Lemma roundZ_exact (z : Z) : Z.abs z <= 2 ^ 53 -> Js.roundZ z = z.
Proof.
  intros Hz. unfold Js.roundZ.
  rewrite (Qfloor_comp _ _ (round53_whole z Hz)). apply Qfloor_Z.
Qed.

Lemma binary64Z_exact (z : Z) :
  Z.abs z <= 2 ^ 53 -> Js.binary64Z z = Some z.
Proof.
  intros Hz. unfold Js.binary64Z, Js.binary64.
  pose proof (round53_whole z Hz) as Hr.
  rewrite (finite_whole _ z Hr Hz). simpl.
  rewrite (Qfloor_comp _ _ Hr), Qfloor_Z. reflexivity.
Qed.

Lemma plus_exact (a b : Z) :
  Z.abs (a + b) <= 2 ^ 53 -> Js.plus a b = Some (a + b).
Proof. apply binary64Z_exact. Qed.

Lemma minus_exact (a b : Z) :
  Z.abs (a - b) <= 2 ^ 53 -> Js.minus a b = Some (a - b).
Proof. apply binary64Z_exact. Qed.

Lemma times_exact (a b : Z) :
  Z.abs (a * b) <= 2 ^ 53 -> Js.times a b = Some (a * b).
Proof. apply binary64Z_exact. Qed.

(** ** binary64 between whole numbers *)

Lemma pow2_Qpower (e : Z) : (Js.pow2 e == 2 ^ e)%Q.
Proof.
  unfold Js.pow2. destruct (0 <=? e) eqn:E.
  - apply Z.leb_le in E. apply (Zpower_Qpower 2 e E).
  - apply Z.leb_gt in E.
    rewrite (Zpower_Qpower 2 (- e)) by lia.
    change (inject_Z 2) with 2%Q.
    rewrite Qpower_opp. rewrite Qinv_involutive. reflexivity.
Qed.

Lemma pow2_add (a b : Z) : (Js.pow2 (a + b) == Js.pow2 a * Js.pow2 b)%Q.
Proof. rewrite !pow2_Qpower. apply Qpower_plus. discriminate. Qed.

Lemma pow2_le (a b : Z) : a <= b -> (Js.pow2 a <= Js.pow2 b)%Q.
Proof.
  intros H. rewrite !pow2_Qpower. apply Qpower_le_compat_l; [exact H|].
  discriminate.
Qed.

Lemma pow2_lt_inv (a b : Z) : (Js.pow2 a < Js.pow2 b)%Q -> a < b.
Proof.
  rewrite !pow2_Qpower. intros H.
  apply (Qpower_lt_compat_l_inv 2); [exact H | reflexivity].
Qed.

Lemma pow2_whole (e : Z) : 0 <= e -> Js.pow2 e = inject_Z (2 ^ e).
Proof.
  intros H. unfold Js.pow2. apply Z.leb_le in H. rewrite H. reflexivity.
Qed.

(** [ilog2] is the integer part of the binary logarithm. *)
Lemma ilog2_spec (q : Q) :
  (0 < q)%Q -> (Js.pow2 (Js.ilog2 q) <= q /\ q < Js.pow2 (Js.ilog2 q + 1))%Q.
Proof.
  intros Hq. destruct q as [a b].
  assert (Ha : 0 < a) by (unfold Qlt in Hq; simpl in Hq; lia).
  unfold Js.ilog2. cbn [Qnum Qden].
  set (la := Z.log2 a). set (lb := Z.log2 (Z.pos b)).
  destruct (Z.log2_spec a Ha) as [Ha1 Ha2]. fold la in Ha1, Ha2.
  destruct (Z.log2_spec (Z.pos b) ltac:(lia)) as [Hb1 Hb2].
  fold lb in Hb1, Hb2.
  assert (Hla : 0 <= la) by apply Z.log2_nonneg.
  assert (Hlb : 0 <= lb) by apply Z.log2_nonneg.
  assert (Hq' : (a # b == inject_Z a / inject_Z (Z.pos b))%Q)
    by apply Qmake_Qdiv.
  assert (Hbpos : (0 < inject_Z (Z.pos b))%Q) by reflexivity.
  destruct (Qle_bool (Js.pow2 (la - lb)) (a # b)) eqn:E.
  - apply Qle_bool_iff in E. split; [exact E|].
    replace (la - lb + 1) with ((la + 1) + - lb) by lia.
    rewrite pow2_add, (pow2_whole (la + 1)) by lia.
    rewrite pow2_Qpower, Qpower_opp, <- pow2_Qpower, (pow2_whole lb) by lia.
    rewrite Hq'.
    assert (H2 : (0 < inject_Z (2 ^ lb))%Q).
    { rewrite <- (pow2_whole lb) by lia. apply pow2_pos. }
    apply Qlt_shift_div_r; [exact Hbpos|].
    unfold Qdiv.
    assert (Hx : (inject_Z (2 ^ (la + 1)) * / inject_Z (2 ^ lb)
                  * inject_Z (Z.pos b)
                  == inject_Z (2 ^ (la + 1)) * inject_Z (Z.pos b)
                     / inject_Z (2 ^ lb))%Q) by (field; lra).
    rewrite Hx.
    apply Qlt_shift_div_l; [exact H2|].
    rewrite <- !inject_Z_mult. rewrite <- Zlt_Qlt. nia.
  - assert (E' : (a # b < Js.pow2 (la - lb))%Q).
    { apply Qnot_le_lt. intros H. apply Qle_bool_iff in H. congruence. }
    split.
    + replace (la - lb - 1) with (la + - (lb + 1)) by lia.
      rewrite pow2_add, (pow2_whole la) by lia.
      rewrite pow2_Qpower, Qpower_opp, <- pow2_Qpower,
        (pow2_whole (lb + 1)) by lia.
      rewrite Hq'.
      assert (H2 : (0 < inject_Z (2 ^ (lb + 1)))%Q).
      { rewrite <- (pow2_whole (lb + 1)) by lia. apply pow2_pos. }
      apply Qle_shift_div_l; [exact Hbpos|].
      assert (Hx : (inject_Z (2 ^ la) * / inject_Z (2 ^ (lb + 1))
                    * inject_Z (Z.pos b)
                    == inject_Z (2 ^ la) * inject_Z (Z.pos b)
                       / inject_Z (2 ^ (lb + 1)))%Q) by (field; lra).
      rewrite Hx.
      apply Qle_shift_div_r; [exact H2|].
      rewrite <- !inject_Z_mult. rewrite <- Zle_Qle. nia.
    + replace (la - lb - 1 + 1) with (la - lb) by lia. exact E'.
Qed.

Lemma roundEven_le (x : Q) (m : Z) :
  (x <= inject_Z m)%Q -> Js.roundEven x <= m.
Proof.
  intros Hx. unfold Js.roundEven.
  assert (Hf : Qfloor x <= m).
  { rewrite <- (Qfloor_Z m). apply Qfloor_resp_le. exact Hx. }
  pose proof (Qfloor_le x) as Hfx.
  destruct (Qcompare_spec (x - inject_Z (Qfloor x)) (1 # 2)) as [H | H | H];
    [| lia |].
  - destruct (Z.even (Qfloor x)); [lia|].
    destruct (Z.eq_dec (Qfloor x) m) as [E|E]; [|lia].
    rewrite E in H. lra.
  - destruct (Z.eq_dec (Qfloor x) m) as [E|E]; [|lia].
    rewrite E in H. lra.
Qed.

Lemma roundEven_ge (x : Q) (m : Z) :
  (inject_Z m <= x)%Q -> m <= Js.roundEven x.
Proof.
  intros Hx. unfold Js.roundEven.
  assert (Hf : m <= Qfloor x).
  { rewrite <- (Qfloor_Z m). apply Qfloor_resp_le. exact Hx. }
  destruct (x - inject_Z (Qfloor x) ?= 1 # 2)%Q; [|lia|lia].
  destruct (Z.even (Qfloor x)); lia.
Qed.


Lemma round53_pos (q : Q) :
  (0 < q)%Q ->
  (Js.round53 q == inject_Z (Js.roundEven (q / Js.ulp q)) * Js.ulp q)%Q.
Proof.
  intros Hq. unfold Js.round53.
  destruct (Qeq_bool q 0) eqn:E0.
  { apply Qeq_bool_iff in E0. lra. }
  rewrite Qred_correct.
  assert (Ha : Qabs q = q).
  { destruct q as [a b]. unfold Qlt in Hq. simpl in Hq.
    unfold Qabs. rewrite Z.abs_eq by lia. reflexivity. }
  rewrite Ha.
  destruct (Qle_bool 0 q) eqn:E; [reflexivity|].
  assert (Qle_bool 0 q = true) by (apply Qle_bool_iff; lra). congruence.
Qed.

Lemma round53_opp (q : Q) : (Js.round53 (- q) == - Js.round53 q)%Q.
Proof.
  unfold Js.round53.
  destruct (Qeq_bool q 0) eqn:E0.
  - apply Qeq_bool_iff in E0.
    assert (E1 : Qeq_bool (- q) 0 = true) by (apply Qeq_bool_iff; lra).
    rewrite E1. reflexivity.
  - apply Qeq_bool_neq in E0.
    assert (E1 : Qeq_bool (- q) 0 = false).
    { destruct (Qeq_bool (- q) 0) eqn:E; [|reflexivity].
      apply Qeq_bool_iff in E. exfalso. apply E0. lra. }
    rewrite E1, !Qred_correct.
    assert (Ha : Qabs (- q) = Qabs q).
    { destruct q as [a b]. unfold Qabs, Qopp. simpl.
      rewrite Z.abs_opp. reflexivity. }
    rewrite Ha.
    destruct (Qle_bool 0 q) eqn:E; destruct (Qle_bool 0 (- q)) eqn:E';
      try reflexivity.
    + apply Qle_bool_iff in E, E'. exfalso. apply E0. lra.
    + ring.
    + assert (Qle_bool 0 q = true).
      { apply Qle_bool_iff.
        destruct (Qlt_le_dec q 0) as [H|H]; [|exact H].
        assert (Qle_bool 0 (- q) = true) by (apply Qle_bool_iff; lra).
        congruence. }
      congruence.
Qed.

Lemma ulp_pos (q : Q) : (0 < Js.ulp q)%Q.
Proof. apply pow2_pos. Qed.

(** Rounding does not cross a whole number of magnitude up to 2^53. *)
Lemma round53_pos_le (q : Q) (n : Z) :
  (0 < q)%Q -> (q <= inject_Z n)%Q -> n <= 2 ^ 53 ->
  (Js.round53 q <= inject_Z n)%Q.
Proof.
  intros Hq Hn Hb. rewrite (round53_pos q Hq).
  pose proof (ulp_pos q) as Hu.
  destruct (ilog2_spec q Hq) as [Hlo Hhi].
  assert (Hn0 : 0 < n).
  { rewrite Zlt_Qlt. change (inject_Z 0) with 0%Q. lra. }
  assert (He : Js.ilog2 q <= 53).
  { assert (H : (Js.pow2 (Js.ilog2 q) < Js.pow2 54)%Q).
    { apply Qle_lt_trans with q; [exact Hlo|].
      apply Qle_lt_trans with (inject_Z n); [exact Hn|].
      rewrite (pow2_whole 54) by lia. rewrite <- Zlt_Qlt. lia. }
    apply pow2_lt_inv in H. lia. }
  unfold Js.ulp in *.
  set (E := Z.max (Js.ilog2 q) (-1022)) in *.
  assert (HE : E <= 53) by lia.
  destruct (Z_le_gt_dec (E - 52) 0) as [Hk|Hk].
  - (* n is a whole number of units *)
    assert (Hm : (inject_Z n
                  == inject_Z (n * 2 ^ (52 - E)) * Js.pow2 (E - 52))%Q).
    { rewrite inject_Z_mult, <- (pow2_whole (52 - E)) by lia.
      rewrite <- Qmult_assoc, <- pow2_add.
      replace (52 - E + (E - 52)) with 0 by lia.
      change (Js.pow2 0) with 1%Q. ring. }
    rewrite Hm. apply Qmult_le_compat_r; [|lra].
    rewrite <- Zle_Qle. apply roundEven_le.
    apply Qle_shift_div_r; [exact Hu|]. rewrite <- Hm. exact Hn.
  - assert (E = 53) by lia.
    assert (Hq53 : (q == inject_Z (2 ^ 53))%Q).
    { apply Qle_antisym.
      - apply Qle_trans with (inject_Z n); [exact Hn|].
        rewrite <- Zle_Qle. exact Hb.
      - assert (Js.ilog2 q = 53) by lia.
        rewrite <- (pow2_whole 53) by lia. congruence. }
    assert (Hn53 : n = 2 ^ 53).
    { apply Z.le_antisymm; [exact Hb|].
      rewrite Zle_Qle. rewrite <- Hq53. exact Hn. }
    rewrite H. change (Js.pow2 (53 - 52)) with 2%Q.
    rewrite (roundEven_whole _ (2 ^ 52)).
    + rewrite Hn53. vm_compute. discriminate.
    + rewrite Hq53. reflexivity.
Qed.

Lemma round53_pos_ge (q : Q) (n : Z) :
  (0 < q)%Q -> (inject_Z n <= q)%Q -> n <= 2 ^ 53 ->
  (inject_Z n <= Js.round53 q)%Q.
Proof.
  intros Hq Hn Hb. rewrite (round53_pos q Hq).
  pose proof (ulp_pos q) as Hu.
  destruct (ilog2_spec q Hq) as [Hlo Hhi].
  unfold Js.ulp in *.
  set (E := Z.max (Js.ilog2 q) (-1022)) in *.
  destruct (Z_le_gt_dec (E - 52) 0) as [Hk|Hk].
  - assert (Hm : (inject_Z n
                  == inject_Z (n * 2 ^ (52 - E)) * Js.pow2 (E - 52))%Q).
    { rewrite inject_Z_mult, <- (pow2_whole (52 - E)) by lia.
      rewrite <- Qmult_assoc, <- pow2_add.
      replace (52 - E + (E - 52)) with 0 by lia.
      change (Js.pow2 0) with 1%Q. ring. }
    rewrite Hm. apply Qmult_le_compat_r; [|lra].
    rewrite <- Zle_Qle. apply roundEven_ge.
    apply Qle_shift_div_l; [exact Hu|]. rewrite <- Hm. exact Hn.
  - assert (HE : E = Js.ilog2 q) by lia.
    assert (H52 : (inject_Z (2 ^ 52) <= q / Js.pow2 (E - 52))%Q).
    { apply Qle_shift_div_l; [exact Hu|].
      rewrite <- (pow2_whole 52), <- pow2_add by lia.
      replace (52 + (E - 52)) with E by lia. rewrite HE. exact Hlo. }
    apply roundEven_ge in H52.
    apply Qle_trans with (inject_Z (2 ^ 52) * Js.pow2 (E - 52))%Q.
    + rewrite <- (pow2_whole 52), <- pow2_add by lia.
      replace (52 + (E - 52)) with E by lia.
      apply Qle_trans with (inject_Z (2 ^ 53)).
      * rewrite <- Zle_Qle. exact Hb.
      * rewrite <- (pow2_whole 53) by lia. apply pow2_le. lia.
    + apply Qmult_le_compat_r; [|lra]. rewrite <- Zle_Qle. exact H52.
Qed.

Lemma round53_zero (q : Q) : (q == 0)%Q -> Js.round53 q = 0%Q.
Proof.
  intros H. unfold Js.round53.
  apply Qeq_bool_iff in H. rewrite H. reflexivity.
Qed.

Lemma round53_le_whole (q : Q) (n : Z) :
  Z.abs n <= 2 ^ 53 -> (q <= inject_Z n)%Q -> (Js.round53 q <= inject_Z n)%Q.
Proof.
  intros Hb Hn.
  destruct (Q_dec q 0) as [[Hq|Hq]|Hq].
  - (* q < 0 *)
    assert (Hr : (Js.round53 q == - Js.round53 (- q))%Q).
    { rewrite round53_opp. ring. }
    rewrite Hr.
    destruct (Z_lt_le_dec n 0) as [Hneg|Hpos].
    + assert (H : (inject_Z (- n) <= Js.round53 (- q))%Q).
      { apply round53_pos_ge; [lra | rewrite inject_Z_opp; lra | lia]. }
      rewrite inject_Z_opp in H. lra.
    + assert (H : (inject_Z 0 <= Js.round53 (- q))%Q).
      { apply round53_pos_ge; [lra | change (inject_Z 0) with 0%Q; lra | lia]. }
      change (inject_Z 0) with 0%Q in H.
      assert (0 <= inject_Z n)%Q
        by (change 0%Q with (inject_Z 0); rewrite <- Zle_Qle; exact Hpos).
      lra.
  - apply round53_pos_le; [exact Hq | exact Hn | lia].
  - rewrite (round53_zero q Hq). rewrite <- Hq. exact Hn.
Qed.

Lemma round53_ge_whole (q : Q) (n : Z) :
  Z.abs n <= 2 ^ 53 -> (inject_Z n <= q)%Q -> (inject_Z n <= Js.round53 q)%Q.
Proof.
  intros Hb Hn.
  assert (H : (Js.round53 (- q) <= inject_Z (- n))%Q).
  { apply round53_le_whole; [lia | rewrite inject_Z_opp; lra]. }
  rewrite round53_opp, inject_Z_opp in H. lra.
Qed.

(** A result between two whole numbers of magnitude up to 2^53 is finite
    after rounding and stays between them. *)
Lemma binary64_within (q : Q) (lo hi : Z) :
  Z.abs lo <= 2 ^ 53 -> Z.abs hi <= 2 ^ 53 ->
  (inject_Z lo <= q <= inject_Z hi)%Q ->
  Js.binary64 q = Some (Js.round53 q) /\
  (inject_Z lo <= Js.round53 q <= inject_Z hi)%Q.
Proof.
  intros Hlo Hhi [H1 H2].
  pose proof (round53_ge_whole q lo Hlo H1) as R1.
  pose proof (round53_le_whole q hi Hhi H2) as R2.
  split; [|split; assumption].
  unfold Js.binary64.
  assert (Hf : Js.finite (Js.round53 q) = true).
  { unfold Js.finite. apply negb_true_iff.
    destruct (Qle_bool (Js.pow2 1024) (Qabs (Js.round53 q))) eqn:E;
      [|reflexivity].
    apply Qle_bool_iff in E.
    assert (Hbig : (inject_Z (2 ^ 53) < Js.pow2 1024)%Q).
    { rewrite (pow2_whole 1024) by lia. rewrite <- Zlt_Qlt.
      apply Z.pow_lt_mono_r; lia. }
    assert (Ha : (Qabs (Js.round53 q) <= inject_Z (2 ^ 53))%Q).
    { apply Qabs_Qle_condition. split.
      - apply Qle_trans with (inject_Z lo); [|exact R1].
        rewrite <- inject_Z_opp, <- Zle_Qle. lia.
      - apply Qle_trans with (inject_Z hi); [exact R2|].
        rewrite <- Zle_Qle. lia. }
    lra. }
  rewrite Hf. reflexivity.
Qed.



(** ** Loops *)

Section While.
Context {S : Type} (cond : S -> bool) (body : S -> S).

Lemma while_done (fuel : nat) (s : S) :
  cond s = false -> Js.while fuel cond body s = Some s.
Proof. intros H. destruct fuel; simpl; rewrite H; reflexivity. Qed.


Lemma while_more_fuel (fuel fuel' : nat) (s r : S) :
  (fuel <= fuel')%nat ->
  Js.while fuel cond body s = Some r ->
  Js.while fuel' cond body s = Some r.
Proof.
  revert fuel' s.
  induction fuel as [|fuel IH]; intros fuel' s Hle; simpl.
  - destruct (cond s) eqn:E; [discriminate|].
    intros H. rewrite while_done; assumption.
  - destruct (cond s) eqn:E.
    + destruct fuel' as [|fuel']; [lia|]. simpl. rewrite E.
      apply IH. lia.
    + intros H. rewrite while_done; assumption.
Qed.


End While.

(** The first loop of [getNearestRotationIndex]: with a positive [total] and
    an index not below -2^53 every sum is exact and the loop ends, on the
    index itself when it is not negative and on its residue otherwise. *)
Lemma normalize_loop (total : Z) (fuel : nat) (index : Z) :
  0 < total <= 2 ^ 53 -> - (2 ^ 53) <= index ->
  (Z.to_nat (- index) <= fuel)%nat ->
  Js.while fuel (fun curIndex => curIndex <? 0)
    (fun curIndex => Js.roundZ (curIndex + total)) index
  = Some (if index <? 0 then index mod total else index).
Proof.
  intros Ht. revert index.
  induction fuel as [|fuel IH]; intros index Hlo Hf; simpl.
  - destruct (index <? 0) eqn:E; [apply Z.ltb_lt in E; lia | reflexivity].
  - destruct (index <? 0) eqn:E; [|reflexivity].
    apply Z.ltb_lt in E.
    rewrite (roundZ_exact (index + total)) by lia.
    rewrite IH by lia.
    f_equal.
    destruct (index + total <? 0) eqn:E'.
    + rewrite <- (Z.mod_add index 1 total) by lia. f_equal. lia.
    + apply Z.ltb_ge in E'.
      rewrite <- (Z.mod_add index 1 total) by lia.
      rewrite Z.mod_small; lia.
Qed.

(** [diff > total / 2] on whole numbers. *)
Lemma gt_half (diff total : Z) :
  Js.gt (inject_Z diff) (inject_Z total / 2) = (total <? 2 * diff).
Proof.
  unfold Js.gt.
  destruct (total <? 2 * diff) eqn:E.
  - apply Z.ltb_lt in E.
    destruct (Qle_bool (inject_Z diff) (inject_Z total / 2)) eqn:Q;
      [|reflexivity].
    apply Qle_bool_iff in Q. exfalso.
    unfold Qle, Qdiv, Qmult, Qinv, inject_Z in Q. simpl in Q. lia.
  - apply Z.ltb_ge in E.
    destruct (Qle_bool (inject_Z diff) (inject_Z total / 2)) eqn:Q;
      [reflexivity|].
    exfalso.
    assert (H : ~ (inject_Z diff <= inject_Z total / 2)%Q).
    { intros H. apply Qle_bool_iff in H. congruence. }
    apply H. unfold Qle, Qdiv, Qmult, Qinv, inject_Z. simpl. lia.
Qed.


Lemma getNearestRotationIndex_returns (fuel : nat) (index newIndex total : Z) :
  0 < total <= 2 ^ 52 -> 0 <= newIndex <= 2 ^ 52 ->
  - (2 ^ 52) <= index <= 2 ^ 52 ->
  (Z.to_nat (- index) <= fuel)%nat ->
  getNearestRotationIndex fuel index newIndex total
  = Some (rotationStep index (if index <? 0 then index mod total else index)
            newIndex total).
Proof.
  intros Ht Hn Hi Hf. unfold getNearestRotationIndex.
  rewrite normalize_loop by lia. simpl.
  rewrite while_done by (apply Z.ltb_ge; lia). simpl.
  set (cur := if index <? 0 then index mod total else index).
  assert (Hcur : 0 <= cur <= 2 ^ 52).
  { subst cur. destruct (index <? 0) eqn:E.
    - pose proof (Z.mod_pos_bound index total ltac:(lia)). lia.
    - apply Z.ltb_ge in E. lia. }
  clearbody cur.
  rewrite (minus_exact cur newIndex) by lia. cbn [mbind option_bind].
  rewrite gt_half. unfold rotationStep, Js.Math_abs.
  destruct (total <? 2 * Z.abs (cur - newIndex)).
  - rewrite (minus_exact total (Z.abs (cur - newIndex))) by lia.
    cbn [mbind option_bind].
    destruct (cur >? newIndex);
      [apply plus_exact | apply minus_exact]; lia.
  - destruct (cur <? newIndex);
      [apply plus_exact | apply minus_exact]; lia.
Qed.

(** Inside the range the code handles ([snapIndex] below the item count, the
    target an item number) the rotation is the one of fewest steps. *)
Lemma getNearestRotationIndex_in_range (fuel : nat) (index target total : Z) :
  0 < total <= 2 ^ 52 -> - (2 ^ 52) <= index < total ->
  0 <= target < total ->
  (Z.to_nat (- index) <= fuel)%nat ->
  getNearestRotationIndex fuel index target total
  = Some (nearestRotation_spec index target total).
Proof.
  intros Ht Hi Hn Hf.
  rewrite getNearestRotationIndex_returns by lia.
  f_equal. unfold rotationStep, nearestRotation_spec.
  rewrite (Z.mod_small target total) by lia.
  destruct (index <? 0) eqn:E; [reflexivity|].
  apply Z.ltb_ge in E. rewrite (Z.mod_small index total) by lia.
  reflexivity.
Qed.

(** The rotation of the specification reaches the target and no rotation
    reaching it is shorter. *)
Lemma nearestRotation_spec_minimal (index target total s : Z) :
  0 < total ->
  (nearestRotation_spec index target total) mod total = target mod total /\
  (s mod total = target mod total ->
   Z.abs (nearestRotation_spec index target total - index)
   <= Z.abs (s - index)).
Proof.
  intros Ht. unfold nearestRotation_spec.
  pose proof (Z.mod_pos_bound index total Ht) as Hc.
  pose proof (Z.mod_pos_bound target total Ht) as Hn.
  pose proof (Z.div_mod index total ltac:(lia)) as Di.
  pose proof (Z.div_mod target total ltac:(lia)) as Dt.
  pose proof (Z.div_mod s total ltac:(lia)) as Ds.
  set (c := index mod total) in *. set (t := target mod total) in *.
  assert (Hmod : forall k a, (index + (t - c) + k * total) = a ->
                 a mod total = t).
  { intros k a <-. rewrite Z.mod_add by lia.
    replace (index + (t - c)) with (t + (index / total) * total) by lia.
    rewrite Z.mod_add by lia. apply Z.mod_small. lia. }
  split.
  - destruct (total <? 2 * Z.abs (c - t)) eqn:E.
    + destruct (c >? t) eqn:E1.
      * apply Z.gtb_lt in E1. apply (Hmod 1). lia.
      * rewrite Z.gtb_ltb in E1. apply Z.ltb_ge in E1. apply (Hmod (-1)). lia.
    + destruct (c <? t) eqn:E1.
      * apply Z.ltb_lt in E1. apply (Hmod 0). lia.
      * apply Z.ltb_ge in E1. apply (Hmod 0). lia.
  - intros Hs.
    assert (Hk : s - index = (t - c) + (s / total - index / total) * total)
      by lia.
    set (k := s / total - index / total) in *.
    assert (Hprod : k <= -1 /\ k * total <= - total \/ k = 0 /\ k * total = 0 \/
                    1 <= k /\ total <= k * total).
    { destruct (Z.lt_trichotomy k 0) as [Hk0 | [Hk0 | Hk0]].
      - left. split; [lia|]. nia.
      - right. left. split; [lia|]. subst k. lia.
      - right. right. split; [lia|]. nia. }
    clearbody k. clear Ds Hs.
    destruct (total <? 2 * Z.abs (c - t)) eqn:E.
    + apply Z.ltb_lt in E.
      destruct (c >? t) eqn:E1.
      * apply Z.gtb_lt in E1. lia.
      * rewrite Z.gtb_ltb in E1. apply Z.ltb_ge in E1. lia.
    + apply Z.ltb_ge in E.
      destruct (c <? t) eqn:E1.
      * apply Z.ltb_lt in E1. lia.
      * apply Z.ltb_ge in E1. lia.
Qed.

(** ** The logical index *)

Lemma rem_rem_mod (s n : Z) :
  0 < n -> Z.rem (Z.rem s n + n) n = s mod n.
Proof.
  intros Hn.
  pose proof (Z.rem_bound_abs s n ltac:(lia)) as Hb.
  pose proof (Z.quot_rem' s n) as Hq.
  rewrite Z.rem_mod_nonneg by lia.
  replace (Z.rem s n + n) with (s + (1 - s ÷ n) * n) by lia.
  apply Z.mod_add. lia.
Qed.

Lemma index_mod (c : Carousel) :
  0 < itemCount c -> index c = Some (snapIndex c mod itemCount c).
Proof.
  intros Hn. unfold index, Js.remZ.
  destruct (itemCount c =? 0) eqn:E; [apply Z.eqb_eq in E; lia|].
  simpl. f_equal. apply rem_rem_mod. exact Hn.
Qed.

(** ** Frame lemmas for [goto] *)

Lemma stopAutoplay_frame (c : Carousel) :
  snapIndex (stopAutoplay c) = snapIndex c /\
  previousSnapIndex (stopAutoplay c) = previousSnapIndex c /\
  carouselItems (stopAutoplay c) = carouselItems c /\
  itemWidth (stopAutoplay c) = itemWidth c /\
  viewWidth (stopAutoplay c) = viewWidth c /\
  options (stopAutoplay c) = options c /\
  tweens (stopAutoplay c) = tweens c /\
  events (stopAutoplay c) = events c /\
  animation (stopAutoplay c) = animation c /\
  dragger (stopAutoplay c) = dragger c.
Proof.
  unfold stopAutoplay. destruct (autoplayInterval c); repeat split.
Qed.

Lemma goto_frame (i : Z) (duration delay : option Q) (c : Carousel) :
  snapIndex (goto i duration delay c) = snapIndex c /\
  previousSnapIndex (goto i duration delay c) = previousSnapIndex c /\
  carouselItems (goto i duration delay c) = carouselItems c /\
  itemWidth (goto i duration delay c) = itemWidth c /\
  viewWidth (goto i duration delay c) = viewWidth c /\
  options (goto i duration delay c) = options c /\
  events (goto i duration delay c) = events c /\
  animation (goto i duration delay c) = animation c /\
  dragger (goto i duration delay c) = dragger c /\
  tweens (goto i duration delay c)
  = tweens c ++
    [{| tw_x := i * -1 * itemWidth c;
        tw_duration :=
          default (CarouselController.duration (gotoAnimation (options c)))
                  duration;
        tw_delay := default 0%Q delay;
        tw_ease := ease (gotoAnimation (options c));
        tw_started := false |}].
Proof.
  unfold goto.
  destruct (stopAutoplay_frame c)
    as (H1 & H2 & H3 & H4 & H5 & H6 & H7 & H8 & H9 & H10).
  simpl. rewrite H1, H2, H3, H4, H5, H6, H7, H8, H9, H10.
  repeat split.
Qed.

(** C1: [activate] does not always take the rotation of fewest steps.  With
    ten items and [snapIndex = 19] (logical index 9), [activate(1)] moves
    eight steps back to 11, while normalising both indexes gives [diff = 8 >
    5] and a move of two steps forward to 21; from [snapIndex = 0],
    [activate(18)] moves eight steps forward to 8 instead of two steps back
    to -2.  Only negative indexes are normalised by the loops. *)
Theorem activate_long_way_round :
  index (set_snapIndex 19 carousel10) = Some 9 /\
  snapIndex <$> activate 0 1 (set_snapIndex 19 carousel10) = Some 11 /\
  nearestRotation_spec 19 1 10 = 21 /\
  index (set_snapIndex 21 carousel10) = index (set_snapIndex 11 carousel10) /\
  Z.abs (21 - 19) < Z.abs (11 - 19) /\
  snapIndex <$> activate 0 18 carousel10 = Some 8 /\
  nearestRotation_spec 0 18 10 = -2.
Proof. vm_compute. repeat split. Qed.

(** The example of the specification: ten items, current index 1, target 8:
    three steps backward. *)
Example activate_1_8_of_10 :
  snapIndex <$> activate 0 8 (set_snapIndex 1 carousel10) = Some (-2).
Proof. vm_compute. reflexivity. Qed.



(** The two sides of [getNearestRotationIndex_returns_iff] on five items
    with the snap index at -7: [activate(3)] needs two iterations of the
    first loop and leaves the snap index at -7, which shows item 3 already;
    [activate(-2)] does not return with a budget of a thousand. *)
Example activate_returns_or_not :
  snapIndex <$> activate 2 3 (set_snapIndex (-7) carousel5) = Some (-7) /\
  snapIndex <$> activate 1 3 (set_snapIndex (-7) carousel5) = None /\
  snapIndex <$> activate 1000 (-2) (set_snapIndex (-7) carousel5) = None.
Proof. vm_compute. repeat split. Qed.


(** C2: with at least one item the getter [index] is
    [((snapIndex % itemCount) + itemCount) % itemCount] and lies in
    [[0, itemCount)], whatever the sign of [snapIndex]; five items and
    [snapIndex = -1] give 4. *)
Theorem index_in_range (c : Carousel) :
  0 < itemCount c ->
  exists i,
    index c = Some i /\
    i = Z.rem (Z.rem (snapIndex c) (itemCount c) + itemCount c) (itemCount c) /\
    0 <= i < itemCount c /\
    i = snapIndex c mod itemCount c /\
    (itemCount c = 5 -> snapIndex c = -1 -> i = 4).
Proof.
  intros Hn. exists (snapIndex c mod itemCount c).
  split; [apply index_mod; exact Hn|].
  split; [symmetry; apply rem_rem_mod; exact Hn|].
  split; [apply Z.mod_pos_bound; exact Hn|].
  split; [reflexivity|].
  intros -> ->. reflexivity.
Qed.

Lemma index_in_range_witness :
  0 < itemCount (set_snapIndex (-1) carousel5) /\
  exists i,
    index (set_snapIndex (-1) carousel5) = Some i /\
    i = Z.rem (Z.rem (-1) 5 + 5) 5 /\
    0 <= i < 5 /\
    i = (-1) mod 5 /\
    (5 = 5 -> -1 = -1 -> i = 4).
Proof.
  split; [reflexivity|].
  apply (index_in_range (set_snapIndex (-1) carousel5)). reflexivity.
Defined.

(** ** Single steps *)

Lemma next_single (c : Carousel) :
  Z.abs (snapIndex c + 1) <= 2 ^ 53 ->
  next false c
  = Some (goto (snapIndex c + 1) None None (set_snapIndex (snapIndex c + 1) c)).
Proof.
  intros H. unfold next. cbn [mbind option_bind].
  rewrite plus_exact by exact H. reflexivity.
Qed.

Lemma nextTimes_snapIndex (n : nat) (c : Carousel) :
  - (2 ^ 53) <= snapIndex c -> snapIndex c + Z.of_nat n <= 2 ^ 53 ->
  exists c',
    nextTimes n c = Some c' /\
    snapIndex c' = snapIndex c + Z.of_nat n /\
    carouselItems c' = carouselItems c.
Proof.
  revert c. induction n as [|n IH]; intros c Hlo Hhi.
  - exists c. simpl. repeat split. lia.
  - cbn [nextTimes]. rewrite next_single by lia. cbn [mbind option_bind].
    destruct (goto_frame (snapIndex c + 1) None None
                (set_snapIndex (snapIndex c + 1) c))
      as (G1 & _ & G3 & _).
    destruct (IH (goto (snapIndex c + 1) None None
                    (set_snapIndex (snapIndex c + 1) c)))
      as (c' & Hrun & Hs & Hitems).
    { rewrite G1. simpl. lia. }
    { rewrite G1. simpl. lia. }
    exists c'. split; [exact Hrun|].
    rewrite Hs, Hitems, G1, G3. simpl. split; [lia | reflexivity].
Qed.

(** C5, within the exact range: with at least one item, a snap index not
    below -2^53 and [snapIndex + itemCount] not above 2^53, [next()] called
    [itemCount] times in a row returns and brings [index] back to the value
    it started from. *)
Theorem next_itemCount_times (c : Carousel) :
  0 < itemCount c ->
  - (2 ^ 53) <= snapIndex c -> snapIndex c + itemCount c <= 2 ^ 53 ->
  exists c',
    nextTimes (length (carouselItems c)) c = Some c' /\
    snapIndex c' = snapIndex c + itemCount c /\
    index c' = index c /\
    index c = Some (snapIndex c `mod` itemCount c).
Proof.
  intros Hn Hlo Hhi.
  destruct (nextTimes_snapIndex (length (carouselItems c)) c Hlo Hhi)
    as (c' & Hrun & Hs & Hitems).
  exists c'. split; [exact Hrun|].
  split; [exact Hs|].
  assert (Hcount : itemCount c' = itemCount c)
    by (unfold itemCount; rewrite Hitems; reflexivity).
  rewrite !index_mod by lia.
  split; [|reflexivity].
  rewrite Hcount, Hs. f_equal.
  fold (itemCount c).
  rewrite <- (Z.mul_1_l (itemCount c)) at 1.
  apply Z.mod_add. lia.
Qed.

Lemma next_itemCount_times_witness :
  0 < itemCount (set_snapIndex (-3) carousel5) /\
  - (2 ^ 53) <= snapIndex (set_snapIndex (-3) carousel5) /\
  snapIndex (set_snapIndex (-3) carousel5)
  + itemCount (set_snapIndex (-3) carousel5) <= 2 ^ 53 /\
  exists c',
    nextTimes (length (carouselItems (set_snapIndex (-3) carousel5)))
      (set_snapIndex (-3) carousel5) = Some c' /\
    snapIndex c'
    = snapIndex (set_snapIndex (-3) carousel5)
      + itemCount (set_snapIndex (-3) carousel5) /\
    index c' = index (set_snapIndex (-3) carousel5) /\
    index (set_snapIndex (-3) carousel5)
    = Some (snapIndex (set_snapIndex (-3) carousel5)
            `mod` itemCount (set_snapIndex (-3) carousel5)).
Proof.
  assert (H1 : 0 < itemCount (set_snapIndex (-3) carousel5)) by reflexivity.
  assert (H2 : - (2 ^ 53) <= snapIndex (set_snapIndex (-3) carousel5))
    by (vm_compute; discriminate).
  assert (H3 : snapIndex (set_snapIndex (-3) carousel5)
               + itemCount (set_snapIndex (-3) carousel5) <= 2 ^ 53)
    by (vm_compute; discriminate).
  split; [exact H1|]. split; [exact H2|]. split; [exact H3|].
  exact (next_itemCount_times (set_snapIndex (-3) carousel5) H1 H2 H3).
Defined.

(** C5, as stated, fails: with five items and the snap index at 2^53 - 2
    (logical index 0) the third [next()] computes 2^53 + 1, which rounds to
    2^53, and so do the fourth and the fifth: after five calls the logical
    index is 2. *)
Lemma next_stalls_at_2_53 :
  0 < itemCount (set_snapIndex (2 ^ 53 - 2) carousel5) /\
  index (set_snapIndex (2 ^ 53 - 2) carousel5) = Some 0 /\
  snapIndex <$> nextTimes 5 (set_snapIndex (2 ^ 53 - 2) carousel5)
  = Some (2 ^ 53) /\
  nextTimes 5 (set_snapIndex (2 ^ 53 - 2) carousel5) ≫= index = Some 2.
Proof. vm_compute. repeat split. Qed.






(** ** Snap *)

(** C4, within the exact range: for every thrown end value whose binary64
    quotient [q] by the item width is finite, [getSnap] stores
    [round(q) * -1] as [snapIndex]; when [snapIndex * itemWidth] has a
    magnitude of at most 2^53 it returns [snapIndex * -1 * itemWidth], a
    whole multiple of [itemWidth]. *)
Theorem getSnap_item_boundary (c : Carousel) (endValue q : Q) :
  itemWidth c <> 0 ->
  Js.div64 endValue (inject_Z (itemWidth c)) = Some q ->
  Z.abs (Js.Math_round q * itemWidth c) <= 2 ^ 53 ->
  exists position c',
    getSnap endValue c = Some (position, c') /\
    snapIndex c' = Js.Math_round q * -1 /\
    position = snapIndex c' * -1 * itemWidth c /\
    (itemWidth c | position) /\
    itemWidth c' = itemWidth c.
Proof.
  intros Hw Hq Hb. unfold getSnap. rewrite Hq. cbn [mbind option_bind].
  cbn [snapIndex set_snapIndex itemWidth].
  rewrite times_exact by (rewrite Z.abs_mul in *; lia).
  eexists _, _. split; [reflexivity|]. simpl.
  split; [reflexivity|]. split; [reflexivity|].
  split; [|reflexivity].
  eexists. reflexivity.
Qed.

Lemma getSnap_item_boundary_witness :
  itemWidth carousel5 <> 0 /\
  Js.div64 (-(1234 # 10)) (inject_Z (itemWidth carousel5))
  = Some (default 0%Q (Js.binary64 (-(1234 # 1000)))) /\
  Z.abs (Js.Math_round (default 0%Q (Js.binary64 (-(1234 # 1000))))
         * itemWidth carousel5) <= 2 ^ 53 /\
  exists position c',
    getSnap (-(1234 # 10)) carousel5 = Some (position, c') /\
    snapIndex c'
    = Js.Math_round (default 0%Q (Js.binary64 (-(1234 # 1000)))) * -1 /\
    position = snapIndex c' * -1 * itemWidth carousel5 /\
    (itemWidth carousel5 | position) /\
    itemWidth c' = itemWidth carousel5.
Proof.
  assert (H1 : itemWidth carousel5 <> 0) by discriminate.
  assert (H2 : Js.div64 (-(1234 # 10)) (inject_Z (itemWidth carousel5))
               = Some (default 0%Q (Js.binary64 (-(1234 # 1000)))))
    by (vm_compute; reflexivity).
  assert (H3 : Z.abs (Js.Math_round
                        (default 0%Q (Js.binary64 (-(1234 # 1000))))
                      * itemWidth carousel5) <= 2 ^ 53)
    by (vm_compute; discriminate).
  split; [exact H1|]. split; [exact H2|]. split; [exact H3|].
  exact (getSnap_item_boundary carousel5 (-(1234 # 10)) _ H1 H2 H3).
Defined.

(** C4, as stated, fails: with items 3 wide, the end value
    -27021597764222984 gives the quotient -9007199254740994, the snap index
    9007199254740994, and the product -27021597764222982 rounds to
    -27021597764222984, which is not a multiple of 3. *)
Lemma getSnap_off_boundary :
  itemWidth narrow3 = 3 /\
  (fun r => (fst r, snapIndex (snd r))) <$>
    getSnap (inject_Z (-27021597764222984)) narrow3
  = Some (-27021597764222984, 9007199254740994) /\
  ~ (3 | -27021597764222984).
Proof.
  split; [vm_compute; reflexivity|].
  split; [vm_compute; reflexivity|].
  intros [k Hk]. lia.
Qed.

Example getSnap_sample :
  fst <$> getSnap (-(1234 # 10)) carousel5 = Some (-100) /\
  fst <$> getSnap (-150) carousel5 = Some (-100) /\
  fst <$> getSnap (-151) carousel5 = Some (-200).
Proof. vm_compute. repeat split. Qed.

(** ** Bounds *)

(** C7: a bounded carousel drags between
    [minX = -(itemWidth * itemCount - viewWidth)] and [maxX = 0] with no
    overshoot; an infinite one has no bounds ([getBounds] is [null]) and an
    overshoot tolerance of 1. *)
Theorem drag_bounds (c : Carousel) :
  (isInfinite (options c) = false ->
   getBounds c
   = Some {| maxX := 0;
             minX := - (itemWidth c * itemCount c - viewWidth c) |} /\
   dr_bounds <$> dragger (createDraggable c) = Some (getBounds c) /\
   dr_overshootTolerance <$> dragger (createDraggable c) = Some 0) /\
  (isInfinite (options c) = true ->
   getBounds c = None /\
   dr_bounds <$> dragger (createDraggable c) = Some None /\
   dr_overshootTolerance <$> dragger (createDraggable c) = Some 1).
Proof.
  split; intros H; unfold createDraggable; simpl;
    unfold getBounds; rewrite H; repeat split.
Qed.

Lemma drag_bounds_witness :
  isInfinite (options bounded5) = false /\
  isInfinite (options carousel5) = true /\
  getBounds bounded5 = Some {| maxX := 0; minX := -250 |} /\
  dr_overshootTolerance <$> dragger (createDraggable bounded5) = Some 0 /\
  getBounds carousel5 = None /\
  dr_overshootTolerance <$> dragger (createDraggable carousel5) = Some 1.
Proof.
  split; [reflexivity|]. split; [reflexivity|].
  destruct (proj1 (drag_bounds bounded5)) as (B1 & _ & B3); [reflexivity|].
  destruct (proj2 (drag_bounds carousel5)) as (I1 & _ & I3); [reflexivity|].
  repeat split; assumption.
Defined.

(** ** Resize *)

Lemma sameNavigation_refl (c : Carousel) : sameNavigation c c.
Proof. repeat split. Qed.

Lemma sameNavigation_trans (c1 c2 c3 : Carousel) :
  sameNavigation c1 c2 -> sameNavigation c2 c3 -> sameNavigation c1 c3.
Proof.
  unfold sameNavigation. intros H12 H23.
  repeat match goal with H : _ /\ _ |- _ => destruct H end.
  repeat split; congruence.
Qed.

Lemma sameGeometry_trans (c1 c2 c3 : Carousel) :
  sameGeometry c1 c2 -> sameGeometry c2 c3 -> sameGeometry c1 c3.
Proof.
  unfold sameGeometry. intros (A1 & A2 & A3) (B1 & B2 & B3).
  repeat split; congruence.
Qed.

Lemma setStyle_same (el : HTMLElement) (prop : string) (v : StyleValue)
    (c : Carousel) :
  sameNavigation c (setStyle el prop v c) /\
  sameGeometry c (setStyle el prop v c).
Proof. repeat split. Qed.

Lemma staggerX_same (items : list HTMLElement) (i : Z) (c : Carousel) :
  sameNavigation c (staggerX items i c) /\ sameGeometry c (staggerX items i c).
Proof.
  revert i c. induction items as [|el items IH]; intros i c; simpl.
  - repeat split.
  - destruct (IH (i + 1) (setStyle el "x" (Px (itemWidth c * (i + 1))) c))
      as [Hn Hg].
    destruct (setStyle_same el "x" (Px (itemWidth c * (i + 1))) c) as [Sn Sg].
    split.
    + eapply sameNavigation_trans; eassumption.
    + eapply sameGeometry_trans; eassumption.
Qed.

Lemma setItemPositions_same (c : Carousel) :
  sameNavigation c (setItemPositions c) /\ sameGeometry c (setItemPositions c).
Proof.
  unfold setItemPositions.
  destruct (staggerX_same (carouselItems c) 0 c) as [Hn Hg].
  set (c1 := staggerX (carouselItems c) 0 c) in *.
  destruct (setStyle_same (dragElement c1) "left" (Px (- itemWidth c1)) c1)
    as [Sn Sg].
  split.
  - eapply sameNavigation_trans; eassumption.
  - eapply sameGeometry_trans; eassumption.
Qed.

Lemma setWrapperHeight_same (c : Carousel) :
  sameNavigation c (setWrapperHeight c) /\ sameGeometry c (setWrapperHeight c).
Proof. repeat split. Qed.

Lemma setItemDimensions_same (dom : Dom) (c : Carousel) :
  sameNavigation c (setItemDimensions dom c) /\
  viewWidth (setItemDimensions dom c) = offsetWidth dom (wrapperElement c) /\
  itemWidth (setItemDimensions dom c)
  = match carouselItems c with
    | [] => itemWidth c
    | first :: _ => offsetWidth dom first
    end.
Proof.
  unfold setItemDimensions. simpl.
  destruct (carouselItems c) eqn:E; simpl; rewrite ?E; repeat split.
Qed.

Lemma measured_same (dom : Dom) (c : Carousel) :
  sameNavigation c (measured dom c) /\
  viewWidth (measured dom c) = offsetWidth dom (wrapperElement c) /\
  itemWidth (measured dom c)
  = match carouselItems c with
    | [] => itemWidth c
    | first :: _ => offsetWidth dom first
    end.
Proof.
  unfold measured.
  destruct (setItemDimensions_same dom c) as (D & Dv & Dw).
  set (c1 := setItemDimensions dom c) in *.
  destruct (setWrapperHeight_same c1) as (W & Wg).
  set (c2 := setWrapperHeight c1) in *.
  destruct (setItemPositions_same c2) as (P & Pg).
  split.
  - eapply sameNavigation_trans; [|exact P].
    eapply sameNavigation_trans; eassumption.
  - destruct Wg as (W1 & _ & W3). destruct Pg as (P1 & _ & P3).
    split; congruence.
Qed.



(** ** CHANGE events *)

Lemma pending_goto (i : Z) (duration delay : option Q) (c : Carousel) :
  pending (goto i duration delay c) = S (pending c).
Proof.
  unfold pending.
  destruct (goto_frame i duration delay c)
    as (_ & _ & _ & _ & _ & _ & _ & _ & _ & G10).
  rewrite G10, filter_app, length_app.
  rewrite filter_cons_True by reflexivity. rewrite filter_nil. simpl. lia.
Qed.

Lemma startFirst_pending (tws : list Tween) :
  (0 < length (filter (fun tw => tw_started tw = false) tws))%nat ->
  exists tws',
    startFirst tws = Some tws' /\
    length (filter (fun tw => tw_started tw = false) tws')
    = Nat.pred (length (filter (fun tw => tw_started tw = false) tws)).
Proof.
  induction tws as [|tw tws IH]; simpl.
  - lia.
  - destruct (tw_started tw) eqn:E.
    + rewrite filter_cons_False by congruence.
      intros H. destruct (IH H) as (tws' & Hs & Hl).
      exists (tw :: tws'). rewrite Hs. split; [reflexivity|].
      rewrite filter_cons_False by congruence. exact Hl.
    + rewrite filter_cons_True by assumption.
      intros _. eexists. split; [reflexivity|].
      rewrite filter_cons_False by (simpl; congruence). reflexivity.
Qed.

Lemma getNearestRotationIndex_more_fuel (fuel fuel' : nat)
    (index newIndex total r : Z) :
  (fuel <= fuel')%nat ->
  getNearestRotationIndex fuel index newIndex total = Some r ->
  getNearestRotationIndex fuel' index newIndex total = Some r.
Proof.
  intros Hle. unfold getNearestRotationIndex.
  destruct (Js.while fuel _ _ index) as [cur|] eqn:E1; [|discriminate].
  rewrite (while_more_fuel _ _ fuel fuel' index cur Hle E1). simpl.
  destruct (Js.while fuel _ _ newIndex) as [upd|] eqn:E2; [|discriminate].
  rewrite (while_more_fuel _ _ fuel fuel' newIndex upd Hle E2). simpl.
  auto.
Qed.

(** How [CHANGE] is dispatched: a programmatic navigation ([goto], and so
    [previous], [next] and [activate]) dispatches nothing itself and leaves
    one more tween waiting, and the start of a waiting tween dispatches one
    [CHANGE] without looking at [snapIndex]; a throw compares [snapIndex]
    with [previousSnapIndex], which only [onThrowComplete] writes. *)
Lemma change_dispatch (c : Carousel) :
  (forall i duration delay,
     events (goto i duration delay c) = events c /\
     previousSnapIndex (goto i duration delay c) = previousSnapIndex c /\
     pending (goto i duration delay c) = S (pending c)) /\
  (forall moveRow c1,
     previous moveRow c = Some c1 \/ next moveRow c = Some c1 ->
     events c1 = events c /\ previousSnapIndex c1 = previousSnapIndex c /\
     pending c1 = S (pending c)) /\
  (forall fuel target c1,
     activate fuel target c = Some c1 ->
     events c1 = events c /\ previousSnapIndex c1 = previousSnapIndex c /\
     pending c1 = S (pending c)) /\
  ((0 < pending c)%nat ->
   exists c2,
     tweenStart c = Some c2 /\
     events c2 = events c ++ [CHANGE] /\
     pending c2 = Nat.pred (pending c) /\
     snapIndex c2 = snapIndex c) /\
  events (onThrowComplete c)
  = events c ++
    (if decide (snapIndex c <> previousSnapIndex c) then [CHANGE] else []) /\
  previousSnapIndex (onThrowComplete c) = snapIndex c /\
  snapIndex (onThrowComplete c) = snapIndex c.
Proof.
  assert (Hgoto : forall i duration delay c0,
            events c0 = events c -> tweens c0 = tweens c ->
            previousSnapIndex c0 = previousSnapIndex c ->
            events (goto i duration delay c0) = events c /\
            previousSnapIndex (goto i duration delay c0)
            = previousSnapIndex c /\
            pending (goto i duration delay c0) = S (pending c)).
  { intros i duration delay c0 He Ht Hp.
    destruct (goto_frame i duration delay c0)
      as (_ & G2 & _ & _ & _ & _ & G7 & _).
    split; [congruence|]. split; [congruence|].
    rewrite pending_goto. unfold pending. rewrite Ht. reflexivity. }
  split; [intros; apply Hgoto; reflexivity|].
  split.
  { intros moveRow c1 [H|H]; [unfold previous in H | unfold next in H];
      destruct (if moveRow then _ else _) as [step|]; try discriminate;
      cbn [mbind option_bind] in H;
      [destruct (Js.minus (snapIndex c) step) as [s1|]
      |destruct (Js.plus (snapIndex c) step) as [s1|]];
      try discriminate;
      cbn [mbind option_bind] in H; injection H as <-;
      apply Hgoto; reflexivity. }
  split.
  { intros fuel target c1 Ha. unfold activate in Ha.
    destruct (getNearestRotationIndex fuel (snapIndex c) target (itemCount c))
      as [r|]; [|discriminate].
    simpl in Ha. injection Ha as <-.
    apply Hgoto; reflexivity. }
  split.
  { intros Hp. destruct (startFirst_pending (tweens c) Hp) as (tws & Hs & Hl).
    unfold tweenStart. rewrite Hs. eexists. split; [reflexivity|].
    repeat split. exact Hl. }
  unfold onThrowComplete, startAutoplay.
  destruct (decide (snapIndex c <> previousSnapIndex c)) as [Hd|Hd].
  - rewrite bool_decide_eq_true_2 by exact Hd.
    destruct (isAutoplay _) eqn:E; simpl; rewrite ?E; repeat split.
  - rewrite bool_decide_eq_false_2 by exact Hd.
    destruct (isAutoplay _) eqn:E; simpl; rewrite ?E, ?app_nil_r; repeat split.
Qed.

(** C3: [CHANGE] does not follow the changes of [snapIndex].  On a new
    carousel of five items [activate(0)] leaves [snapIndex] at 0 and its
    tween still dispatches one [CHANGE] when it starts.  After [next()]
    (snap index 1, one [CHANGE]) a throw that settles back on the first
    item changes [snapIndex] from 1 to 0 and [onThrowComplete] dispatches
    nothing, because [goto] left [previousSnapIndex] at 0. *)
Theorem change_ignores_snapIndex :
  index carousel5 = Some 0 /\
  snapIndex <$> activate 0 0 carousel5 = Some (snapIndex carousel5) /\
  changeCount (events carousel5) = 0%nat /\
  (fun c2 => changeCount (events c2)) <$>
    (activate 0 0 carousel5 ≫= tweenStart) = Some 1%nat /\
  (c1 ← next false carousel5;
   c2 ← tweenStart c1;
   '(_, c3) ← getSnap (12 # 1) c2;
   Some (snapIndex c2, previousSnapIndex c2, snapIndex c3,
         events c2, events (onThrowComplete c3)))
  = Some (1, 0, 0, [CHANGE], [CHANGE]).
Proof. vm_compute. repeat split. Qed.

(** ** In-view tracking *)

Section IndexOf.
Context {A : Type} `{EqDecision A}.

Lemma indexOf_from_spec (l : list A) (x : A) (k : Z) :
  ((x ∉ l) /\ Js.indexOf_from l x k = -1) \/
  (exists n : nat,
     Js.indexOf_from l x k = k + Z.of_nat n /\
     l !! n = Some x /\ x ∉ take n l).
Proof.
  revert k. induction l as [|y l IH]; intros k; simpl.
  - left. split; [apply not_elem_of_nil | reflexivity].
  - destruct (decide (y = x)) as [->|Hne].
    + right. exists O. simpl. split; [lia|].
      split; [reflexivity | apply not_elem_of_nil].
    + destruct (IH (k + 1)) as [[Hnot Hi] | (n & Hi & Hl & Ht)].
      * left. split; [|exact Hi].
        rewrite not_elem_of_cons. split; [congruence | exact Hnot].
      * right. exists (S n). simpl. split; [lia|].
        split; [exact Hl|].
        rewrite not_elem_of_cons. split; [congruence | exact Ht].
Qed.


Lemma indexOf_present (l : list A) (x : A) :
  x ∈ l ->
  exists n : nat, Js.indexOf l x = Z.of_nat n /\ l !! n = Some x.
Proof.
  intros Hx. unfold Js.indexOf.
  destruct (indexOf_from_spec l x 0) as [[H _] | (n & Hi & Hl & _)];
    [contradiction|].
  exists n. split; [lia | exact Hl].
Qed.

(** Cutting out the entry [indexOf] finds removes the value from an array
    without repetitions and nothing else. *)
Lemma splice1_indexOf (l : list A) (x : A) :
  NoDup l -> x ∈ l ->
  (x ∉ Js.splice1 l (Js.indexOf l x)) /\
  NoDup (Js.splice1 l (Js.indexOf l x)) /\
  (forall y, y <> x -> (y ∈ Js.splice1 l (Js.indexOf l x)) <-> (y ∈ l)).
Proof.
  intros Hnd Hx.
  destruct (indexOf_present l x Hx) as (n & Hi & Hl).
  unfold Js.splice1. rewrite Hi, Nat2Z.id, delete_take_drop.
  rewrite <- (take_drop_middle l n x Hl) in Hnd.
  apply NoDup_app in Hnd as (Hnd1 & Hdisj & Hnd2).
  apply NoDup_cons in Hnd2 as (Hx2 & Hnd2).
  split; [|split].
  - rewrite elem_of_app. intros [H|H]; [|contradiction].
    apply (Hdisj x H). left.
  - apply NoDup_app. split; [exact Hnd1|]. split; [|exact Hnd2].
    intros y Hy Hy'. apply (Hdisj y Hy). right. exact Hy'.
  - intros y Hy.
    rewrite <- (take_drop_middle l n x Hl) at 3.
    rewrite !elem_of_app, elem_of_cons. tauto.
Qed.
End IndexOf.

Lemma gt_lt_iff (a b : Q) : Js.gt a b = true <-> (b < a)%Q.
Proof.
  unfold Js.gt. rewrite negb_true_iff.
  split.
  - intros H. apply Qnot_le_lt. intros Hle.
    apply Qle_bool_iff in Hle. congruence.
  - intros H. destruct (Qle_bool a b) eqn:E; [|reflexivity].
    apply Qle_bool_iff in E. exfalso. apply (Qlt_not_le _ _ H E).
Qed.

Lemma inViewRange_iff (newX : Q) (c : Carousel) :
  inViewRange newX c = true <->
  (0 < newX /\ newX < inject_Z (viewWidth c + itemWidth c))%Q.
Proof.
  unfold inViewRange, Js.lt. rewrite andb_true_iff.
  fold (Js.gt (inject_Z (viewWidth c + itemWidth c)) newX).
  rewrite !gt_lt_iff. reflexivity.
Qed.


Lemma clamp_bounds (q : Q) : (0 <= Js.clamp q 0 1 <= 1)%Q.
Proof.
  unfold Js.clamp.
  destruct (Qle_bool q 1) eqn:E1.
  - apply Qle_bool_iff in E1.
    destruct (Qle_bool 0 q) eqn:E0.
    + apply Qle_bool_iff in E0. split; assumption.
    + split; lra.
  - simpl. split; lra.
Qed.

Section InView.
Variable c : Carousel.
Variable target : HTMLElement.


End InView.



(** The first item enters the band, stays, leaves and stays out: one
    [ITEM_IN_VIEW], a progress event per update inside, one
    [ITEM_OUT_VIEW]. *)
Example inView_trace :
  let run :=
    '(_, c1) ← getAnimationModifier 120 1%nat carousel5;
    '(_, c2) ← getAnimationModifier 200 1%nat c1;
    '(_, c3) ← getAnimationModifier 400 1%nat c2;
    '(_, c4) ← getAnimationModifier (-30) 1%nat c3;
    Some (inViewIndexes c1, inViewIndexes c2, inViewIndexes c3, events c4) in
  run = Some ([0], [0], [],
              [ITEM_IN_VIEW 0; ITEM_IN_VIEW_PROGRESS (120 # 350) 0;
               ITEM_IN_VIEW_PROGRESS (200 # 350) 0; ITEM_OUT_VIEW 0]).
Proof. vm_compute. reflexivity. Qed.

(** * Further properties *)

(** ** Navigation *)





(** X2: When [snapIndex] is below the item count (and not below -2^52) and
    the target is an item number, [activate] takes the rotation of fewest
    steps: it moves by at most half the item count, and no snap index with
    the target as its logical index is nearer. *)
Theorem activate_shortest_in_range (c : Carousel) (target : Z) :
  0 < itemCount c <= 2 ^ 52 -> - (2 ^ 52) <= snapIndex c < itemCount c ->
  0 <= target < itemCount c ->
  (exists fuel c', activate fuel target c = Some c') /\
  (forall fuel c',
     activate fuel target c = Some c' ->
     snapIndex c' = nearestRotation_spec (snapIndex c) target (itemCount c) /\
     2 * Z.abs (snapIndex c' - snapIndex c) <= itemCount c /\
     (forall s, s mod itemCount c = target ->
        Z.abs (snapIndex c' - snapIndex c) <= Z.abs (s - snapIndex c))).
Proof.
  intros Hn Hs Ht. split.
  - exists (Z.to_nat (- snapIndex c)). unfold activate.
    rewrite getNearestRotationIndex_returns by lia. eexists. reflexivity.
  - intros fuel c' Ha.
    assert (Hr : snapIndex c'
                 = nearestRotation_spec (snapIndex c) target (itemCount c)).
    { unfold activate in Ha.
      destruct (getNearestRotationIndex fuel (snapIndex c) target (itemCount c))
        as [r|] eqn:E; [|discriminate].
      simpl in Ha. injection Ha as <-.
      apply (getNearestRotationIndex_more_fuel fuel
               (fuel + Z.to_nat (- snapIndex c))) in E; [|lia].
      rewrite getNearestRotationIndex_in_range in E by lia.
      injection E as <-.
      destruct (goto_frame
                  (nearestRotation_spec (snapIndex c) target (itemCount c))
                  None None
                  (set_snapIndex
                     (nearestRotation_spec (snapIndex c) target (itemCount c))
                     c)) as (G1 & _).
      rewrite G1. reflexivity. }
    split; [exact Hr|]. split.
    + rewrite Hr. unfold nearestRotation_spec.
      pose proof (Z.mod_pos_bound (snapIndex c) (itemCount c) ltac:(lia))
        as Hb.
      rewrite (Z.mod_small target) by lia.
      set (cur := snapIndex c mod itemCount c) in *.
      destruct (itemCount c <? 2 * Z.abs (cur - target)) eqn:E.
      * apply Z.ltb_lt in E. destruct (cur >? target); lia.
      * apply Z.ltb_ge in E. destruct (cur <? target); lia.
    + intros s Hmod. rewrite Hr.
      apply nearestRotation_spec_minimal; [lia|].
      rewrite Hmod. symmetry. apply Z.mod_small. lia.
Qed.

Lemma activate_shortest_in_range_witness :
  0 < itemCount (set_snapIndex 1 carousel10) <= 2 ^ 52 /\
  - (2 ^ 52) <= snapIndex (set_snapIndex 1 carousel10)
  < itemCount (set_snapIndex 1 carousel10) /\
  0 <= 8 < itemCount (set_snapIndex 1 carousel10) /\
  (forall fuel c',
     activate fuel 8 (set_snapIndex 1 carousel10) = Some c' ->
     snapIndex c' = -2).
Proof.
  assert (H1 : 0 < itemCount (set_snapIndex 1 carousel10) <= 2 ^ 52)
    by (vm_compute; split; [reflexivity | discriminate]).
  assert (H2 : - (2 ^ 52) <= snapIndex (set_snapIndex 1 carousel10)
               < itemCount (set_snapIndex 1 carousel10))
    by (vm_compute; split; [discriminate | reflexivity]).
  assert (H3 : 0 <= 8 < itemCount (set_snapIndex 1 carousel10))
    by (split; [lia | reflexivity]).
  split; [exact H1|]. split; [exact H2|]. split; [exact H3|].
  intros fuel c' Ha.
  destruct (activate_shortest_in_range (set_snapIndex 1 carousel10) 8 H1 H2 H3)
    as [_ H].
  destruct (H fuel c' Ha) as (Hr & _).
  rewrite Hr. reflexivity.
Defined.

Lemma nextTimes_pending (k : nat) (c : Carousel) :
  - (2 ^ 53) <= snapIndex c -> snapIndex c + Z.of_nat k <= 2 ^ 53 ->
  exists c',
    nextTimes k c = Some c' /\
    snapIndex c' = snapIndex c + Z.of_nat k /\
    carouselItems c' = carouselItems c /\
    pending c' = (pending c + k)%nat /\
    events c' = events c.
Proof.
  revert c. induction k as [|k IH]; intros c Hlo Hhi.
  - exists c. simpl. repeat split; lia.
  - cbn [nextTimes]. rewrite next_single by lia. cbn [mbind option_bind].
    set (c1 := goto (snapIndex c + 1) None None
                 (set_snapIndex (snapIndex c + 1) c)).
    destruct (goto_frame (snapIndex c + 1) None None
                (set_snapIndex (snapIndex c + 1) c))
      as (G1 & _ & G3 & _ & _ & _ & G7 & _).
    fold c1 in G1, G3, G7.
    destruct (IH c1) as (c' & Hrun & Hs & Hitems & Hp & He);
      [rewrite G1; simpl; lia | rewrite G1; simpl; lia |].
    exists c'. split; [exact Hrun|].
    rewrite Hs, Hitems, Hp, He, G1, G3, G7.
    subst c1. rewrite pending_goto. simpl.
    repeat split; try lia.
    unfold pending. simpl. lia.
Qed.

(** X3: While the snap index stays within 2^53, [k] calls of [next()] in a row
    return, advance the logical index by [k] modulo the item count, dispatch
    nothing themselves and leave [k] more tweens waiting to start. *)
Theorem next_advances_index (c : Carousel) (k : nat) :
  0 < itemCount c ->
  - (2 ^ 53) <= snapIndex c -> snapIndex c + Z.of_nat k <= 2 ^ 53 ->
  exists c',
    nextTimes k c = Some c' /\
    index c' = Some ((snapIndex c + Z.of_nat k) mod itemCount c) /\
    pending c' = (pending c + k)%nat /\
    events c' = events c.
Proof.
  intros Hn Hlo Hhi.
  destruct (nextTimes_pending k c Hlo Hhi)
    as (c' & Hrun & Hs & Hitems & Hp & He).
  exists c'. split; [exact Hrun|].
  assert (Hc : itemCount c' = itemCount c)
    by (unfold itemCount; rewrite Hitems; reflexivity).
  rewrite index_mod by lia. rewrite Hc, Hs. auto.
Qed.

Lemma next_advances_index_witness :
  0 < itemCount (set_snapIndex 3 carousel5) /\
  - (2 ^ 53) <= snapIndex (set_snapIndex 3 carousel5) /\
  snapIndex (set_snapIndex 3 carousel5) + Z.of_nat 4 <= 2 ^ 53 /\
  exists c',
    nextTimes 4 (set_snapIndex 3 carousel5) = Some c' /\
    index c' = Some 2 /\
    pending c' = 4%nat.
Proof.
  assert (H1 : 0 < itemCount (set_snapIndex 3 carousel5)) by reflexivity.
  assert (H2 : - (2 ^ 53) <= snapIndex (set_snapIndex 3 carousel5))
    by (vm_compute; discriminate).
  assert (H3 : snapIndex (set_snapIndex 3 carousel5) + Z.of_nat 4 <= 2 ^ 53)
    by (vm_compute; discriminate).
  split; [exact H1|]. split; [exact H2|]. split; [exact H3|].
  destruct (next_advances_index (set_snapIndex 3 carousel5) 4 H1 H2 H3)
    as (c' & Hrun & Hi & Hp & _).
  exists c'. split; [exact Hrun|]. split; [exact Hi | exact Hp].
Defined.







(** At the edge of the exact range the two do not undo each other: from
    2^53, [next()] stays and [previous()] then goes one below. *)
Example next_previous_at_2_53 :
  snapIndex <$> (next false (set_snapIndex (2 ^ 53) carousel5)
                 ≫= previous false) = Some (2 ^ 53 - 1).
Proof. vm_compute. reflexivity. Qed.



(** ** Snap and throw *)

(** What [getSnap] changes: [snapIndex] and nothing else. *)
Lemma getSnap_inv (c c' : Carousel) (endValue : Q) (position : Z) :
  getSnap endValue c = Some (position, c') ->
  exists q,
    Js.div64 endValue (inject_Z (itemWidth c)) = Some q /\
    c' = set_snapIndex (Js.Math_round q * -1) c /\
    Js.times (Js.Math_round q * -1 * -1) (itemWidth c) = Some position.
Proof.
  unfold getSnap. intros H.
  destruct (Js.div64 endValue (inject_Z (itemWidth c))) as [q|];
    [|discriminate].
  cbn [mbind option_bind] in H.
  cbn [snapIndex set_snapIndex itemWidth] in H.
  destruct (Js.times (Js.Math_round q * -1 * -1) (itemWidth c)) as [p|] eqn:E;
    [|discriminate].
  cbn [mbind option_bind] in H. injection H as <- <-.
  exists q. split; [reflexivity|]. split; [reflexivity | exact E].
Qed.

Lemma Math_round_whole (z : Z) (q : Q) :
  (q == inject_Z z)%Q -> Js.Math_round q = z.
Proof.
  intros Hq. unfold Js.Math_round.
  pose proof (Qfloor_le (q + (1 # 2))) as Hlo.
  pose proof (Qlt_floor (q + (1 # 2))) as Hhi.
  set (r := Qfloor (q + (1 # 2))) in *. clearbody r.
  rewrite Hq in Hlo. rewrite Hq in Hhi.
  unfold Qle, Qplus, inject_Z in Hlo. unfold Qlt, Qplus, inject_Z in Hhi.
  simpl in Hlo, Hhi. lia.
Qed.

Lemma Math_round_between (q : Q) (lo hi : Z) :
  (inject_Z lo <= q <= inject_Z hi)%Q -> lo <= Js.Math_round q <= hi.
Proof.
  intros [H1 H2]. unfold Js.Math_round. split.
  - rewrite <- (Qfloor_Z lo). apply Qfloor_resp_le. lra.
  - assert (H : Qfloor (q + (1 # 2)) < hi + 1); [|lia].
    rewrite Zlt_Qlt.
    apply Qle_lt_trans with (q + (1 # 2))%Q; [apply Qfloor_le|].
    rewrite inject_Z_plus. change (inject_Z 1) with 1%Q. lra.
Qed.

Lemma inject_Z_nonzero (w : Z) : w <> 0 -> ~ (inject_Z w == 0)%Q.
Proof. intros Hw H. unfold Qeq, inject_Z in H. simpl in H. lia. Qed.

Lemma div64_nonzero (a : Q) (w : Z) :
  w <> 0 -> Js.div64 a (inject_Z w) = Js.binary64 (a / inject_Z w).
Proof.
  intros Hw. unfold Js.div64.
  destruct (Qeq_bool (inject_Z w) 0) eqn:E; [|reflexivity].
  apply Qeq_bool_iff in E. exfalso. exact (inject_Z_nonzero w Hw E).
Qed.

(** X6: A throw that ends within [n] item widths of the origin, where
    [n * itemWidth] is at most 2^53, always snaps: [getSnap] returns, the
    index it stores is within [n] items of the origin and the position is
    that index times the item width, so a whole multiple of it. *)
Theorem getSnap_within (c : Carousel) (endValue : Q) (n : Z) :
  itemWidth c <> 0 ->
  n * Z.abs (itemWidth c) <= 2 ^ 53 ->
  (Qabs endValue <= inject_Z (n * Z.abs (itemWidth c)))%Q ->
  exists position c',
    getSnap endValue c = Some (position, c') /\
    Z.abs (snapIndex c') <= n /\
    position = snapIndex c' * -1 * itemWidth c /\
    (itemWidth c | position) /\
    (exists q, Js.binary64 (endValue / inject_Z (itemWidth c)) = Some q /\
               snapIndex c' = Js.Math_round q * -1).
Proof.
  intros Hw Hb He.
  set (w := itemWidth c) in *.
  assert (Hwq : ~ (inject_Z w == 0)%Q) by (apply inject_Z_nonzero; exact Hw).
  assert (Haw : (0 < inject_Z (Z.abs w))%Q).
  { change 0%Q with (inject_Z 0). rewrite <- Zlt_Qlt. lia. }
  assert (Hn0 : 0 <= n).
  { assert (H : (0 <= inject_Z (n * Z.abs w))%Q).
    { apply Qle_trans with (Qabs endValue); [apply Qabs_nonneg|exact He]. }
    change 0%Q with (inject_Z 0) in H. rewrite <- Zle_Qle in H. nia. }
  assert (Hn53 : n <= 2 ^ 53) by nia.
  set (q := (endValue / inject_Z w)%Q).
  assert (Hq : (Qabs q <= inject_Z n)%Q).
  { unfold q, Qdiv. rewrite Qabs_Qmult, Qabs_Qinv.
    change (Qabs (inject_Z w)) with (inject_Z (Z.abs w)).
    apply Qle_shift_div_r; [exact Haw|].
    rewrite <- inject_Z_mult. exact He. }
  apply Qabs_Qle_condition in Hq. rewrite <- inject_Z_opp in Hq.
  destruct (binary64_within q (- n) n) as [Hbin Hr]; [lia | lia | exact Hq|].
  pose proof (Math_round_between _ _ _ Hr) as Hm.
  unfold getSnap. fold w. rewrite (div64_nonzero endValue w Hw).
  fold q. rewrite Hbin. cbn [mbind option_bind].
  cbn [snapIndex set_snapIndex itemWidth]. fold w.
  set (m := Js.Math_round (Js.round53 q)) in *.
  rewrite times_exact by (rewrite Z.abs_mul; nia).
  cbn [mbind option_bind].
  eexists _, _. split; [reflexivity|].
  cbn [snapIndex set_snapIndex].
  split; [lia|]. split; [reflexivity|].
  split; [exists (m * -1 * -1); reflexivity|].
  exists (Js.round53 q). split; reflexivity.
Qed.

Lemma getSnap_within_witness :
  itemWidth carousel5 <> 0 /\
  3 * Z.abs (itemWidth carousel5) <= 2 ^ 53 /\
  (Qabs (-(1234 # 10)) <= inject_Z (3 * Z.abs (itemWidth carousel5)))%Q /\
  exists position c',
    getSnap (-(1234 # 10)) carousel5 = Some (position, c') /\
    Z.abs (snapIndex c') <= 3 /\
    (itemWidth carousel5 | position).
Proof.
  assert (H1 : itemWidth carousel5 <> 0) by discriminate.
  assert (H2 : 3 * Z.abs (itemWidth carousel5) <= 2 ^ 53)
    by (vm_compute; discriminate).
  assert (H3 : (Qabs (-(1234 # 10))
                <= inject_Z (3 * Z.abs (itemWidth carousel5)))%Q)
    by (vm_compute; discriminate).
  split; [exact H1|]. split; [exact H2|]. split; [exact H3|].
  destruct (getSnap_within carousel5 (-(1234 # 10)) 3 H1 H2 H3)
    as (position & c' & Hg & Hs & _ & Hd & _).
  exists position, c'. repeat split; assumption.
Defined.

(** X7: Snapping at the position [goto] animates to gives back the index: for
    an index [i] with [i * itemWidth] within 2^53, [getSnap] at
    [i * -1 * itemWidth] stores [i] as [snapIndex] and returns the same
    position. *)
Theorem getSnap_goto_position (c : Carousel) (i : Z) :
  itemWidth c <> 0 ->
  Z.abs (i * itemWidth c) <= 2 ^ 53 ->
  exists c',
    getSnap (inject_Z (tw_x (gotoTween i c))) c
    = Some (tw_x (gotoTween i c), c') /\
    snapIndex c' = i /\
    index c' = index (set_snapIndex i c).
Proof.
  intros Hw Hb.
  set (w := itemWidth c) in *.
  assert (Hwq : ~ (inject_Z w == 0)%Q) by (apply inject_Z_nonzero; exact Hw).
  assert (Hi : Z.abs i <= 2 ^ 53) by (rewrite Z.abs_mul in Hb; nia).
  cbn [gotoTween tw_x]. fold w.
  set (q := (inject_Z (i * -1 * w) / inject_Z w)%Q).
  assert (Hq : (q == inject_Z (- i))%Q).
  { unfold q. rewrite !inject_Z_mult, inject_Z_opp. field. exact Hwq. }
  destruct (binary64_within q (- i) (- i)) as [Hbin [R1 R2]];
    [lia | lia | rewrite Hq; split; apply Qle_refl|].
  assert (Hm : Js.Math_round (Js.round53 q) = - i).
  { apply Math_round_whole. apply Qle_antisym; assumption. }
  unfold getSnap. fold w. rewrite (div64_nonzero _ w Hw).
  fold q. rewrite Hbin. cbn [mbind option_bind].
  cbn [snapIndex set_snapIndex itemWidth]. fold w. rewrite Hm.
  rewrite times_exact
    by (replace (- i * -1 * -1 * w) with (- (i * w)) by lia;
        rewrite Z.abs_opp; exact Hb).
  cbn [mbind option_bind].
  eexists. split.
  - f_equal. f_equal. lia.
  - cbn [snapIndex set_snapIndex]. split; [lia|].
    unfold index, itemCount. cbn [snapIndex set_snapIndex carouselItems].
    replace (- i * -1) with i by lia. reflexivity.
Qed.

Lemma getSnap_goto_position_witness :
  itemWidth carousel5 <> 0 /\
  Z.abs (-7 * itemWidth carousel5) <= 2 ^ 53 /\
  exists c',
    getSnap (inject_Z (tw_x (gotoTween (-7) carousel5))) carousel5
    = Some (tw_x (gotoTween (-7) carousel5), c') /\
    snapIndex c' = -7 /\
    index c' = index (set_snapIndex (-7) carousel5).
Proof.
  assert (H1 : itemWidth carousel5 <> 0) by discriminate.
  assert (H2 : Z.abs (-7 * itemWidth carousel5) <= 2 ^ 53)
    by (vm_compute; discriminate).
  split; [exact H1|]. split; [exact H2|].
  exact (getSnap_goto_position carousel5 (-7) H1 H2).
Defined.

Lemma onThrowComplete_spec (c : Carousel) :
  events (onThrowComplete c)
  = events c ++
    (if decide (snapIndex c <> previousSnapIndex c) then [CHANGE] else []) /\
  previousSnapIndex (onThrowComplete c) = snapIndex c /\
  snapIndex (onThrowComplete c) = snapIndex c /\
  tweens (onThrowComplete c) = tweens c /\
  inViewIndexes (onThrowComplete c) = inViewIndexes c.
Proof.
  unfold onThrowComplete, startAutoplay.
  destruct (decide (snapIndex c <> previousSnapIndex c)) as [Hd|Hd].
  - rewrite bool_decide_eq_true_2 by exact Hd.
    destruct (isAutoplay _) eqn:E; simpl; rewrite ?E; repeat split.
  - rewrite bool_decide_eq_false_2 by exact Hd.
    destruct (isAutoplay _) eqn:E; simpl; rewrite ?E, ?app_nil_r; repeat split.
Qed.

(** X8: A throw ([getSnap] for the end value, then [onThrowComplete])
    dispatches one [CHANGE] when the index it settles on differs from
    [previousSnapIndex] and none when it is the same; [previousSnapIndex]
    then is that index, so a second [onThrowComplete] dispatches nothing. *)
Theorem throw_dispatches_once (c c1 : Carousel) (endValue : Q)
    (position : Z) :
  getSnap endValue c = Some (position, c1) ->
  events (onThrowComplete c1)
  = events c ++
    (if decide (snapIndex c1 <> previousSnapIndex c) then [CHANGE] else []) /\
  previousSnapIndex (onThrowComplete c1) = snapIndex c1 /\
  events (onThrowComplete (onThrowComplete c1))
  = events (onThrowComplete c1).
Proof.
  intros Hg. destruct (getSnap_inv _ _ _ _ Hg) as (q & _ & -> & _).
  set (c1 := set_snapIndex _ c).
  destruct (onThrowComplete_spec c1) as (E1 & P1 & S1 & _).
  destruct (onThrowComplete_spec (onThrowComplete c1)) as (E2 & _).
  split; [exact E1|]. split; [exact P1|].
  rewrite E2, P1, S1.
  destruct (decide (snapIndex c1 <> snapIndex c1)) as [H|H];
    [contradiction | apply app_nil_r].
Qed.

Lemma throw_dispatches_once_witness :
  getSnap (-(260 # 1)) carousel5
  = Some (-300, set_snapIndex 3 carousel5) /\
  events (onThrowComplete (set_snapIndex 3 carousel5)) = [CHANGE] /\
  previousSnapIndex (onThrowComplete (set_snapIndex 3 carousel5)) = 3 /\
  events (onThrowComplete (onThrowComplete (set_snapIndex 3 carousel5)))
  = [CHANGE].
Proof.
  assert (H1 : getSnap (-(260 # 1)) carousel5
               = Some (-300, set_snapIndex 3 carousel5))
    by (vm_compute; reflexivity).
  split; [exact H1|].
  destruct (throw_dispatches_once carousel5 (set_snapIndex 3 carousel5)
              (-(260 # 1)) (-300) H1) as (E1 & P1 & E2).
  split; [rewrite E1; vm_compute; reflexivity|].
  split; [exact P1|].
  rewrite E2, E1. vm_compute. reflexivity.
Defined.

(** ** Autoplay *)

Lemma freshTimer_above (running : list nat) (t : nat) :
  t ∈ running -> (t < freshTimer running)%nat.
Proof.
  unfold freshTimer. induction running as [|t' running IH]; simpl.
  - intros H. apply elem_of_nil in H. contradiction.
  - rewrite elem_of_cons. intros [-> | H]; [lia|].
    specialize (IH H). lia.
Qed.

Lemma freshTimer_fresh (running : list nat) : freshTimer running ∉ running.
Proof. intros H. apply freshTimer_above in H. lia. Qed.

Lemma filter_other (id : nat) (running : list nat) :
  id ∉ running -> filter (fun t => t <> id) running = running.
Proof.
  induction running as [|t running IH]; [reflexivity|].
  rewrite not_elem_of_cons. intros [Hne Hnot].
  rewrite filter_cons_True by congruence. rewrite IH by exact Hnot.
  reflexivity.
Qed.

(** What [startAutoplay] does when autoplay is switched on. *)
Lemma startAutoplay_on (c : Carousel) :
  isAutoplay (options c) = true ->
  autoplayInterval (startAutoplay c) = Some (freshTimer (timers c)) /\
  timers (startAutoplay c) = freshTimer (timers c) :: timers c /\
  options (startAutoplay c) = options c /\
  events (startAutoplay c) = events c.
Proof.
  intros Ha. unfold startAutoplay. rewrite Ha. repeat split.
Qed.

Lemma stopAutoplay_held (c : Carousel) (id : nat) :
  autoplayInterval c = Some id ->
  timers (stopAutoplay c) = filter (fun t => t <> id) (timers c) /\
  autoplayInterval (stopAutoplay c) = None /\
  stopAutoplay (stopAutoplay c) = stopAutoplay c.
Proof.
  intros Hid.
  assert (H : stopAutoplay c
              = set_autoplayInterval None
                  (set_timers (filter (fun t => t <> id) (timers c)) c)).
  { unfold stopAutoplay. rewrite Hid. reflexivity. }
  rewrite H. split; [reflexivity|]. split; reflexivity.
Qed.

(** X9: With autoplay switched on, [startAutoplay] takes a handle that no
    running timer has and that is not zero, and [stopAutoplay] right after
    it ends exactly that timer: the running timers are those from before
    the start and no handle is kept. *)
Theorem autoplay_start_stop (c : Carousel) :
  isAutoplay (options c) = true ->
  autoplayInterval (startAutoplay c) = Some (freshTimer (timers c)) /\
  freshTimer (timers c) <> O /\
  (freshTimer (timers c) ∉ timers c) /\
  timers (startAutoplay c) = freshTimer (timers c) :: timers c /\
  timers (stopAutoplay (startAutoplay c)) = timers c /\
  autoplayInterval (stopAutoplay (startAutoplay c)) = None.
Proof.
  intros Ha. destruct (startAutoplay_on c Ha) as (A1 & A2 & _).
  destruct (stopAutoplay_held _ _ A1) as (S1 & S2 & _).
  split; [exact A1|]. split; [unfold freshTimer; lia|].
  split; [apply freshTimer_fresh|]. split; [exact A2|].
  split; [|exact S2].
  rewrite S1, A2.
  rewrite filter_cons_False by (intros H; apply H; reflexivity).
  apply filter_other, freshTimer_fresh.
Qed.

Lemma autoplay_start_stop_witness :
  isAutoplay (options autoplay3) = true /\
  timers (stopAutoplay (startAutoplay autoplay3)) = timers autoplay3 /\
  autoplayInterval (stopAutoplay (startAutoplay autoplay3)) = None.
Proof.
  split; [vm_compute; reflexivity|].
  apply autoplay_start_stop. vm_compute. reflexivity.
Defined.

(** X10: [startAutoplay] does not end a timer that is running.  When a throw
    completes and then the animation of a [goto] that was started during
    the throw completes, it runs twice with no [stopAutoplay] between: the
    first timer keeps running, its handle is overwritten, and
    [stopAutoplay] only ends the second one. *)
Theorem autoplay_timer_leak (c : Carousel) :
  isAutoplay (options c) = true ->
  exists id1 id2,
    id1 <> id2 /\
    autoplayInterval (onThrowComplete c) = Some id1 /\
    autoplayInterval (gotoOnComplete (onThrowComplete c)) = Some id2 /\
    timers (gotoOnComplete (onThrowComplete c)) = id2 :: id1 :: timers c /\
    timers (stopAutoplay (gotoOnComplete (onThrowComplete c)))
    = id1 :: timers c /\
    autoplayInterval (stopAutoplay (gotoOnComplete (onThrowComplete c)))
    = None /\
    stopAutoplay (stopAutoplay (gotoOnComplete (onThrowComplete c)))
    = stopAutoplay (gotoOnComplete (onThrowComplete c)).
Proof.
  intros Ha. unfold gotoOnComplete, onThrowComplete.
  set (c0 := set_previousSnapIndex _ _).
  assert (H0 : isAutoplay (options c0) = true /\ timers c0 = timers c).
  { subst c0. destruct (bool_decide _); split; assumption || reflexivity. }
  destruct H0 as [Ha0 Ht0].
  destruct (startAutoplay_on c0 Ha0) as (A1 & A2 & A3 & _).
  assert (Ha1 : isAutoplay (options (startAutoplay c0)) = true)
    by (rewrite A3; exact Ha0).
  destruct (startAutoplay_on (startAutoplay c0) Ha1) as (B1 & B2 & _).
  destruct (stopAutoplay_held _ _ B1) as (S1 & S2 & S3).
  pose proof (freshTimer_fresh (timers (startAutoplay c0))) as Hfresh.
  exists (freshTimer (timers c0)), (freshTimer (timers (startAutoplay c0))).
  split.
  { intros Heq. apply Hfresh. rewrite <- Heq, A2. left. }
  split; [exact A1|]. split; [exact B1|].
  split; [rewrite B2, A2, Ht0; reflexivity|].
  split.
  { rewrite S1, B2.
    rewrite filter_cons_False by (intros H; apply H; reflexivity).
    rewrite filter_other by exact Hfresh.
    rewrite A2, Ht0. reflexivity. }
  split; [exact S2 | exact S3].
Qed.

Lemma autoplay_timer_leak_witness :
  isAutoplay (options autoplay3) = true /\
  exists id1,
    id1 ∈ timers (stopAutoplay (gotoOnComplete (onThrowComplete autoplay3))).
Proof.
  split; [vm_compute; reflexivity|].
  destruct (autoplay_timer_leak autoplay3)
    as (id1 & id2 & _ & _ & _ & _ & Ht & _); [vm_compute; reflexivity|].
  exists id1. rewrite Ht. left.
Defined.

(** ** A carousel without autoplay *)

Lemma noAutoplay_same (c c' : Carousel) :
  noAutoplay c -> sameAutoplay c c' -> noAutoplay c'.
Proof.
  intros (H1 & H2 & H3) (S1 & S2 & S3). repeat split; congruence.
Qed.

Lemma sameAutoplay_trans (c1 c2 c3 : Carousel) :
  sameAutoplay c1 c2 -> sameAutoplay c2 c3 -> sameAutoplay c1 c3.
Proof.
  intros (A1 & A2 & A3) (B1 & B2 & B3). repeat split; congruence.
Qed.

Lemma staggerX_autoplay (items : list HTMLElement) (i : Z) (c : Carousel) :
  sameAutoplay c (staggerX items i c).
Proof.
  revert i c. induction items as [|el items IH]; intros i c; simpl.
  - repeat split.
  - eapply sameAutoplay_trans; [|apply IH]. repeat split.
Qed.

Lemma measured_autoplay (dom : Dom) (c : Carousel) :
  sameAutoplay c (measured dom c).
Proof.
  unfold measured, setItemPositions.
  set (c2 := setWrapperHeight (setItemDimensions dom c)).
  assert (H2 : sameAutoplay c c2).
  { subst c2. unfold setWrapperHeight, setItemDimensions. simpl.
    destruct (carouselItems c); repeat split. }
  pose proof (staggerX_autoplay (carouselItems c2) 0 c2) as H3.
  eapply sameAutoplay_trans; [exact H2|].
  eapply sameAutoplay_trans; [exact H3|]. repeat split.
Qed.

Lemma goto_noAutoplay (i : Z) (duration delay : option Q) (c : Carousel) :
  noAutoplay c -> noAutoplay (goto i duration delay c).
Proof.
  intros (H1 & H2 & H3). unfold goto, stopAutoplay. rewrite H3.
  repeat split; assumption.
Qed.

Lemma addInViewItem_autoplay (target : HTMLElement) (currentX : Q)
    (c c' : Carousel) :
  addInViewItem target currentX c = Some c' -> sameAutoplay c c'.
Proof.
  unfold addInViewItem.
  destruct (Js.indexOf (inViewIndexes c) _ <? 0);
    cbn [viewWidth itemWidth set_inViewIndexes dispatchEvent set_events];
    destruct (Js.div _ _); simpl; intros H; inversion H; repeat split.
Qed.

Lemma removeInViewItem_autoplay (target : HTMLElement) (c : Carousel) :
  sameAutoplay c (removeInViewItem target c).
Proof.
  unfold removeInViewItem.
  destruct (Js.indexOf (inViewIndexes c) _ >? -1); repeat split.
Qed.

Lemma getAnimationModifier_autoplay (x : Q) (target : HTMLElement)
    (c c' : Carousel) (newX : Q) :
  getAnimationModifier x target c = Some (newX, c') -> sameAutoplay c c'.
Proof.
  unfold getAnimationModifier.
  destruct (Js.rem x _) as [nx|]; [|discriminate]. cbn [mbind option_bind].
  set (c1 := if hideOverflowItems (options c) then _ else c).
  assert (H1 : sameAutoplay c c1).
  { subst c1. destruct (hideOverflowItems (options c)); repeat split. }
  destruct (inViewRange nx c1).
  - destruct (addInViewItem target nx c1) as [c2|] eqn:E; [|discriminate].
    simpl. intros H. injection H as _ <-.
    eapply sameAutoplay_trans; [exact H1|].
    eapply addInViewItem_autoplay. exact E.
  - simpl. intros H. injection H as _ <-.
    eapply sameAutoplay_trans; [exact H1|]. apply removeInViewItem_autoplay.
Qed.

(** X11: a carousel whose autoplay is switched off and that has no timer
    keeps it that way: no navigation, resize, drag, throw, tween callback or
    animation update starts a timer or stores a handle. *)
Theorem no_autoplay_no_timer (c : Carousel) :
  noAutoplay c ->
  (forall i duration delay, noAutoplay (goto i duration delay c)) /\
  (forall moveRow c',
     previous moveRow c = Some c' \/ next moveRow c = Some c' ->
     noAutoplay c') /\
  (forall fuel target c', activate fuel target c = Some c' -> noAutoplay c') /\
  (forall dom, noAutoplay (updateSize dom c)) /\
  (forall endValue position c',
     getSnap endValue c = Some (position, c') -> noAutoplay c') /\
  noAutoplay (onDragStart c) /\
  noAutoplay (onThrowComplete c) /\
  noAutoplay (gotoOnStart c) /\
  noAutoplay (gotoOnComplete c) /\
  (forall x target newX c',
     getAnimationModifier x target c = Some (newX, c') -> noAutoplay c').
Proof.
  intros Hno. pose proof Hno as (H1 & H2 & H3).
  split; [intros; apply goto_noAutoplay; exact Hno|].
  split.
  { intros moveRow c' [H|H]; [unfold previous in H | unfold next in H];
      destruct (if moveRow then _ else _) as [step|]; try discriminate;
      cbn [mbind option_bind] in H;
      [destruct (Js.minus (snapIndex c) step) as [s1|]
      |destruct (Js.plus (snapIndex c) step) as [s1|]];
      try discriminate;
      cbn [mbind option_bind] in H; injection H as <-; apply goto_noAutoplay;
      repeat split; assumption. }
  split.
  { intros fuel target c' H. unfold activate in H.
    destruct (getNearestRotationIndex _ _ _ _) as [r|]; [|discriminate].
    simpl in H. injection H as <-. apply goto_noAutoplay.
    repeat split; assumption. }
  split.
  { intros dom. unfold updateSize. fold (measured dom c).
    pose proof (noAutoplay_same _ _ Hno (measured_autoplay dom c)) as Hm.
    destruct (dragger (measured dom c)); [|exact Hm].
    apply goto_noAutoplay. destruct Hm as (M1 & M2 & M3).
    repeat split; assumption. }
  split.
  { intros endValue position c' H.
    destruct (getSnap_inv _ _ _ _ H) as (q & _ & -> & _).
    repeat split; assumption. }
  split; [unfold onDragStart, stopAutoplay; rewrite H3; exact Hno|].
  split.
  { unfold onThrowComplete, startAutoplay.
    destruct (bool_decide _); simpl; rewrite H1; repeat split; assumption. }
  split; [repeat split; assumption|].
  split; [unfold gotoOnComplete, startAutoplay; rewrite H1; exact Hno|].
  intros x target newX c' H.
  eapply noAutoplay_same; [exact Hno|].
  eapply getAnimationModifier_autoplay. exact H.
Qed.

Lemma no_autoplay_no_timer_witness :
  noAutoplay carousel5 /\
  (forall dom, noAutoplay (updateSize dom carousel5)) /\
  noAutoplay (onThrowComplete carousel5).
Proof.
  assert (H : noAutoplay carousel5) by (vm_compute; repeat split).
  split; [exact H|].
  destruct (no_autoplay_no_timer carousel5 H)
    as (_ & _ & _ & Hu & _ & _ & Ht & _).
  split; [exact Hu | exact Ht].
Defined.

(** ** Measuring and layout *)

Lemma foldl_max_bounds (h : Z) (hs : list Z) :
  h <= foldl Z.max h hs /\
  (forall x, x ∈ hs -> x <= foldl Z.max h hs) /\
  (foldl Z.max h hs = h \/ foldl Z.max h hs ∈ hs).
Proof.
  revert h. induction hs as [|x hs IH]; intros h; simpl.
  - split; [lia|]. split; [|left; reflexivity].
    intros x Hx. apply elem_of_nil in Hx. contradiction.
  - destruct (IH (Z.max h x)) as (I1 & I2 & I3).
    split; [lia|]. split.
    + intros y Hy. apply elem_of_cons in Hy as [-> | Hy]; [lia | auto].
    + destruct I3 as [I3 | I3].
      * destruct (Z.max_spec h x) as [[_ Hm] | [_ Hm]]; rewrite Hm in *.
        -- right. rewrite I3. left.
        -- left. exact I3.
      * right. right. exact I3.
Qed.

(** X12: [updateSize] takes the viewport width from the wrapper, the item
    width from the first item and the item height from the tallest item;
    with no items the item width and height stay as they were. *)
Theorem updateSize_measures (dom : Dom) (c : Carousel) :
  viewWidth (updateSize dom c) = offsetWidth dom (wrapperElement c) /\
  (carouselItems c = [] ->
   itemWidth (updateSize dom c) = itemWidth c /\
   itemHeight (updateSize dom c) = itemHeight c) /\
  (forall first rest,
     carouselItems c = first :: rest ->
     itemWidth (updateSize dom c) = offsetWidth dom first /\
     (forall el, el ∈ carouselItems c ->
        offsetHeight dom el <= itemHeight (updateSize dom c)) /\
     (exists el, el ∈ carouselItems c /\
        itemHeight (updateSize dom c) = offsetHeight dom el)).
Proof.
  assert (Hgeo : viewWidth (updateSize dom c)
                 = viewWidth (setItemDimensions dom c) /\
                 itemWidth (updateSize dom c)
                 = itemWidth (setItemDimensions dom c) /\
                 itemHeight (updateSize dom c)
                 = itemHeight (setItemDimensions dom c)).
  { unfold updateSize. fold (measured dom c).
    assert (Hm : sameGeometry (setItemDimensions dom c) (measured dom c)).
    { unfold measured.
      eapply sameGeometry_trans; [apply setWrapperHeight_same|].
      apply setItemPositions_same. }
    destruct Hm as (M1 & M2 & M3).
    destruct (dragger (measured dom c)).
    - unfold goto, stopAutoplay.
      destruct (autoplayInterval (createAnimation (measured dom c)));
        simpl; auto.
    - auto. }
  destruct Hgeo as (Gv & Gw & Gh). rewrite Gv, Gw, Gh.
  unfold setItemDimensions.
  change (carouselItems (set_viewWidth (offsetWidth dom (wrapperElement c)) c))
    with (carouselItems c).
  split; [destruct (carouselItems c); reflexivity|].
  split.
  - intros ->. simpl. split; reflexivity.
  - intros first rest ->. simpl.
    destruct (foldl_max_bounds (offsetHeight dom first)
                (offsetHeight dom <$> rest)) as (B1 & B2 & B3).
    split; [reflexivity|]. split.
    + intros el Hel. apply elem_of_cons in Hel as [-> | Hel]; [exact B1|].
      apply B2. apply list_elem_of_fmap. exists el.
      split; [reflexivity | exact Hel].
    + destruct B3 as [B3 | B3].
      * exists first. split; [left | exact B3].
      * apply list_elem_of_fmap in B3 as (el & Heq & Hel).
        exists el. split; [right; exact Hel | exact Heq].
Qed.

Lemma updateSize_measures_witness :
  carouselItems carousel5 = [1; 2; 3; 4; 5]%nat /\
  itemWidth (updateSize sampleDom carousel5) = offsetWidth sampleDom 1%nat /\
  (forall el, el ∈ carouselItems carousel5 ->
     offsetHeight sampleDom el <= itemHeight (updateSize sampleDom carousel5)).
Proof.
  assert (H : carouselItems carousel5 = [1; 2; 3; 4; 5]%nat)
    by (vm_compute; reflexivity).
  split; [exact H|].
  destruct (updateSize_measures sampleDom carousel5) as (_ & _ & Hf).
  destruct (Hf _ _ H) as (Hw & Hh & _).
  split; [exact Hw | exact Hh].
Defined.

Lemma goto_styles (i : Z) (duration delay : option Q) (c : Carousel) :
  styles (goto i duration delay c) = styles c /\
  itemHeight (goto i duration delay c) = itemHeight c /\
  wrapperElement (goto i duration delay c) = wrapperElement c /\
  dragElement (goto i duration delay c) = dragElement c.
Proof.
  unfold goto, stopAutoplay. destruct (autoplayInterval c); repeat split.
Qed.

Lemma staggerX_other (items : list HTMLElement) (i : Z) (c : Carousel)
    (k : HTMLElement * string) :
  (forall el, el ∈ items -> k <> (el, "x")) ->
  styles (staggerX items i c) !! k = styles c !! k.
Proof.
  revert i c. induction items as [|el items IH]; intros i c Hk; simpl.
  - reflexivity.
  - rewrite IH by (intros el' Hel; apply Hk; right; exact Hel).
    unfold setStyle. simpl. apply lookup_insert_ne.
    intros Heq. apply (Hk el); [left | symmetry; exact Heq].
Qed.

Lemma staggerX_item (items : list HTMLElement) (i : Z) (c : Carousel)
    (n : nat) (el : HTMLElement) :
  NoDup items -> items !! n = Some el ->
  styles (staggerX items i c) !! (el, "x")
  = Some (Px (itemWidth c * (i + Z.of_nat n + 1))).
Proof.
  revert i c n. induction items as [|el0 items IH]; intros i c n Hnd Hl.
  - discriminate.
  - apply NoDup_cons in Hnd as [Hnot Hnd]. simpl.
    destruct n as [|n]; simpl in Hl.
    + injection Hl as ->.
      rewrite staggerX_other.
      * unfold setStyle. simpl. rewrite lookup_insert_eq.
        do 2 f_equal. lia.
      * intros el' Hel Heq. injection Heq as ->. contradiction.
    + rewrite (IH (i + 1) _ n Hnd Hl). simpl. do 2 f_equal. lia.
Qed.

(** X13: after [updateSize] the items of a list without repetition sit side
    by side, item number [n] at [itemWidth * (n + 1)], the drag container is
    shifted left by one item width, and the wrapper and the drag container
    are as high as the tallest item. *)
Theorem updateSize_layout (dom : Dom) (c : Carousel) :
  NoDup (carouselItems c) ->
  (forall n el,
     carouselItems c !! n = Some el ->
     styles (updateSize dom c) !! (el, "x")
     = Some (Px (itemWidth (updateSize dom c) * (Z.of_nat n + 1)))) /\
  styles (updateSize dom c) !! (dragElement c, "left")
  = Some (Px (- itemWidth (updateSize dom c))) /\
  styles (updateSize dom c) !! (wrapperElement c, "height")
  = Some (Px (itemHeight (updateSize dom c))) /\
  styles (updateSize dom c) !! (dragElement c, "height")
  = Some (Px (itemHeight (updateSize dom c))).
Proof.
  intros Hnd.
  assert (Hm : styles (updateSize dom c) = styles (measured dom c) /\
               itemWidth (updateSize dom c) = itemWidth (measured dom c) /\
               itemHeight (updateSize dom c) = itemHeight (measured dom c)).
  { unfold updateSize. fold (measured dom c).
    destruct (dragger (measured dom c)); [|auto].
    destruct (goto_styles (snapIndex (createAnimation (measured dom c)))
                (Some (1 # 10)) (Some 0%Q) (createAnimation (measured dom c)))
      as (G1 & G2 & _).
    destruct (goto_frame (snapIndex (createAnimation (measured dom c)))
                (Some (1 # 10)) (Some 0%Q) (createAnimation (measured dom c)))
      as (_ & _ & _ & G4 & _).
    rewrite G1, G2, G4. auto. }
  destruct Hm as (-> & -> & ->).
  unfold measured, setItemPositions.
  set (c1 := setItemDimensions dom c).
  assert (H1 : carouselItems c1 = carouselItems c /\
               wrapperElement c1 = wrapperElement c /\
               dragElement c1 = dragElement c).
  { destruct (setItemDimensions_same dom c)
      as ((_ & _ & S3 & S4 & S5 & _) & _).
    auto. }
  destruct H1 as (I1 & W1 & D1).
  set (c2 := setWrapperHeight c1).
  assert (H2 : carouselItems c2 = carouselItems c /\
               wrapperElement c2 = wrapperElement c /\
               dragElement c2 = dragElement c /\
               itemWidth c2 = itemWidth c1 /\ itemHeight c2 = itemHeight c1 /\
               styles c2 !! (wrapperElement c, "height")
               = Some (Px (itemHeight c1)) /\
               styles c2 !! (dragElement c, "height")
               = Some (Px (itemHeight c1))).
  { subst c2. unfold setWrapperHeight, setStyle. simpl.
    rewrite I1, W1, D1. repeat split.
    - destruct (decide (dragElement c = wrapperElement c)) as [->|Hne].
      + apply lookup_insert_eq.
      + rewrite lookup_insert_ne by congruence. apply lookup_insert_eq.
    - apply lookup_insert_eq. }
  destruct H2 as (I2 & W2 & D2 & Wd2 & Ht2 & Sw2 & Sd2).
  destruct (staggerX_same (carouselItems c2) 0 c2)
    as ((_ & _ & _ & _ & D3 & _) & (Wd3 & Ht3 & _)).
  set (c3 := staggerX (carouselItems c2) 0 c2) in *.
  unfold setStyle. simpl. rewrite D3, D2, Wd3, Ht3.
  split; [|split; [|split]].
  - intros n el Hl.
    rewrite lookup_insert_ne by (intros H; inversion H).
    subst c3. rewrite (staggerX_item _ 0 c2 n el); rewrite ?I2; auto.
  - apply lookup_insert_eq.
  - rewrite lookup_insert_ne by (intros H; inversion H).
    subst c3. rewrite staggerX_other by (intros el _ H; inversion H).
    rewrite Sw2, Ht2. reflexivity.
  - rewrite lookup_insert_ne by (intros H; inversion H).
    subst c3. rewrite staggerX_other by (intros el _ H; inversion H).
    rewrite Sd2, Ht2. reflexivity.
Qed.

Lemma updateSize_layout_witness :
  NoDup (carouselItems carousel5) /\
  styles (updateSize sampleDom carousel5) !! (3%nat, "x")
  = Some (Px (itemWidth (updateSize sampleDom carousel5) * (Z.of_nat 2 + 1))) /\
  styles (updateSize sampleDom carousel5) !! (dragElement carousel5, "left")
  = Some (Px (- itemWidth (updateSize sampleDom carousel5))).
Proof.
  assert (H : NoDup (carouselItems carousel5)).
  { apply (bool_decide_unpack _). vm_compute. exact I. }
  split; [exact H|].
  destruct (updateSize_layout sampleDom carousel5 H) as (Hx & Hl & _).
  split; [apply Hx; vm_compute; reflexivity | exact Hl].
Defined.

(** X14: [updateSize] never touches the dragger: the bounds and the
    overshoot tolerance given to [Draggable] at construction stay as they
    were, while [getBounds] on the resized carousel follows the new
    measurements. *)
Theorem updateSize_keeps_dragger (dom : Dom) (c : Carousel) :
  dragger (updateSize dom c) = dragger c /\
  getBounds (updateSize dom c)
  = (if isInfinite (options c) then None
     else Some {| maxX := 0;
                  minX := - (itemWidth (updateSize dom c) * itemCount c
                             - offsetWidth dom (wrapperElement c)) |}).
Proof.
  destruct (measured_same dom c)
    as ((_ & _ & M3 & _ & _ & M6 & _ & M8 & _) & Mv & _).
  assert (H : dragger (updateSize dom c) = dragger c /\
              options (updateSize dom c) = options c /\
              carouselItems (updateSize dom c) = carouselItems c /\
              viewWidth (updateSize dom c)
              = offsetWidth dom (wrapperElement c)).
  { unfold updateSize. fold (measured dom c).
    set (m := measured dom c) in *. clearbody m.
    destruct (dragger m) eqn:E; [|rewrite E; auto].
    destruct (goto_frame (snapIndex (createAnimation m))
                (Some (1 # 10)) (Some 0%Q) (createAnimation m))
      as (_ & _ & G3 & _ & G5 & G6 & _ & _ & G9 & _).
    rewrite G3, G5, G6, G9.
    change (dragger (createAnimation m)) with (dragger m).
    change (options (createAnimation m)) with (options m).
    change (carouselItems (createAnimation m)) with (carouselItems m).
    change (viewWidth (createAnimation m)) with (viewWidth m).
    rewrite E. auto. }
  destruct H as (Hd & Ho & Hi & Hv).
  split; [exact Hd|].
  unfold getBounds, itemCount. rewrite Ho, Hi, Hv. reflexivity.
Qed.

(** After a resize to a viewport 400 wide the bounded sample keeps the
    lower bound -250 of its construction; measured again it would be
    -100. *)
Example stale_bounds_after_resize :
  let wide := {| offsetWidth := fun el => if decide (el = O) then 400 else 100;
                 offsetHeight := offsetHeight sampleDom |} in
  (minX <$> (dragger (updateSize wide bounded5) ≫= dr_bounds)) = Some (-250) /\
  (minX <$> getBounds (updateSize wide bounded5)) = Some (-100).
Proof. vm_compute. split; reflexivity. Qed.

Lemma staggerX_dragProxy (items : list HTMLElement) (i : Z) (c : Carousel) :
  dragProxy (staggerX items i c) = dragProxy c.
Proof.
  revert i c. induction items as [|el items IH]; intros i c; simpl;
    [reflexivity|].
  rewrite IH. reflexivity.
Qed.

Lemma measured_dragProxy (dom : Dom) (c : Carousel) :
  dragProxy (measured dom c) = dragProxy c.
Proof.
  unfold measured, setItemPositions, setStyle. simpl.
  rewrite staggerX_dragProxy.
  unfold setWrapperHeight, setItemDimensions. simpl.
  destruct (carouselItems c); reflexivity.
Qed.

(** ** Construction *)

(** The last three steps of the constructor on a measured state. *)
Lemma built_spec (m : Carousel) :
  let c := startAutoplay (createDraggable (createAnimation m)) in
  (snapIndex c = snapIndex m /\ previousSnapIndex c = previousSnapIndex m /\
   events c = events m /\ tweens c = tweens m /\
   inViewIndexes c = inViewIndexes m /\ carouselItems c = carouselItems m /\
   options c = options m /\ viewWidth c = viewWidth m /\
   itemWidth c = itemWidth m) /\
  animation c
  = Some {| an_targets := carouselItems m;
            an_by := itemWidth m * itemCount m; an_progress := 0 |} /\
  dragger c
  = Some {| dr_target := dragProxy m; dr_trigger := dragElement m;
            dr_throwProps := true;
            dr_overshootTolerance := if isInfinite (options m) then 1 else 0;
            dr_bounds := getBounds m; dr_x := 0 |} /\
  (isAutoplay (options m) = false ->
   timers c = timers m /\ autoplayInterval c = autoplayInterval m) /\
  (isAutoplay (options m) = true ->
   autoplayInterval c = Some (freshTimer (timers m)) /\
   timers c = freshTimer (timers m) :: timers m).
Proof.
  cbv zeta. unfold startAutoplay.
  change (options (createDraggable (createAnimation m))) with (options m).
  destruct (isAutoplay (options m)); repeat split; discriminate.
Qed.

(** X15: A new controller starts at snap index 0 with no event dispatched, no
    tween created and nothing in view; it holds the measurements of the
    page, the animation over the whole track and a dragger at 0 whose
    bounds and overshoot tolerance follow [isInfinite]; a timer runs exactly
    when autoplay is switched on. *)
Theorem new_initial (dom : Dom) (wrapper drag : HTMLElement)
    (items : list HTMLElement) (proxy : HTMLElement) (o : PartialOptions) :
  let c := new dom wrapper drag items proxy o in
  snapIndex c = 0 /\ previousSnapIndex c = 0 /\
  events c = [] /\ tweens c = [] /\ inViewIndexes c = [] /\
  carouselItems c = items /\
  options c = assignOptions defaultOptions o /\
  viewWidth c = offsetWidth dom wrapper /\
  animation c
  = Some {| an_targets := items; an_by := itemWidth c * itemCount c;
            an_progress := 0 |} /\
  dragger c
  = Some {| dr_target := proxy; dr_trigger := drag; dr_throwProps := true;
            dr_overshootTolerance := if isInfinite (options c) then 1 else 0;
            dr_bounds := getBounds c; dr_x := 0 |} /\
  (items <> [] -> index c = Some 0) /\
  (items = [] -> index c = None) /\
  (isAutoplay (options c) = false -> noAutoplay c) /\
  (isAutoplay (options c) = true ->
   autoplayInterval c = Some 1%nat /\ timers c = [1%nat]).
Proof.
  cbv zeta. unfold new.
  set (c0 := mkCarousel wrapper drag items proxy 0 0 0 None None 0 0 []
               None (assignOptions defaultOptions o) ∅ [] [] []).
  assert (Hu : updateSize dom c0 = measured dom c0).
  { unfold updateSize. fold (measured dom c0).
    destruct (measured_same dom c0)
      as ((_ & _ & _ & _ & _ & _ & _ & M8 & _) & _).
    rewrite M8. reflexivity. }
  rewrite Hu. clear Hu.
  destruct (measured_same dom c0)
    as ((M1 & M2 & M3 & M4 & M5 & M6 & M7 & M8 & M9 & M10 & M11) & Mv & Mw).
  destruct (measured_autoplay dom c0) as (_ & A2 & A3).
  pose proof (measured_dragProxy dom c0) as Hp.
  change (snapIndex c0) with 0 in M1.
  change (previousSnapIndex c0) with 0 in M2.
  change (carouselItems c0) with items in M3.
  change (dragElement c0) with drag in M5.
  change (options c0) with (assignOptions defaultOptions o) in M6.
  change (tweens c0) with (@nil Tween) in M9.
  change (events c0) with (@nil CarouselEvent) in M10.
  change (inViewIndexes c0) with (@nil Z) in M11.
  change (wrapperElement c0) with wrapper in Mv.
  change (timers c0) with (@nil nat) in A2.
  change (autoplayInterval c0) with (@None nat) in A3.
  change (dragProxy c0) with proxy in Hp.
  clear M4 M7 M8 Mw.
  generalize dependent (measured dom c0). clear c0. intros m.
  intros M1 M2 M3 M5 M6 M9 M10 M11 Mv A2 A3 Hp.
  destruct (built_spec m)
    as ((B1 & B2 & B3 & B4 & B5 & B6 & B7 & B8 & B9) & Ba & Bd & Boff & Bon).
  set (c := startAutoplay (createDraggable (createAnimation m))) in *.
  clearbody c.
  assert (Hb : getBounds c = getBounds m).
  { unfold getBounds, itemCount. rewrite B6, B7, B8, B9. reflexivity. }
  split; [congruence|]. split; [congruence|]. split; [congruence|].
  split; [congruence|]. split; [congruence|]. split; [congruence|].
  split; [congruence|]. split; [congruence|].
  split.
  { rewrite Ba, B9. unfold itemCount. rewrite B6, M3. reflexivity. }
  split.
  { rewrite Bd, Hb, B7, Hp, M5. reflexivity. }
  split.
  { intros Hne. rewrite index_mod.
    - rewrite B1, M1. reflexivity.
    - unfold itemCount. rewrite B6, M3.
      destruct items; [contradiction | simpl; lia]. }
  split.
  { intros Hnil. unfold index, itemCount, Js.remZ.
    rewrite B6, M3, Hnil. reflexivity. }
  split.
  { intros Hoff. rewrite B7 in Hoff.
    destruct (Boff Hoff) as [T1 T2].
    unfold noAutoplay. rewrite B7, T1, T2, A2, A3. auto. }
  intros Hon. rewrite B7 in Hon.
  destruct (Bon Hon) as [T1 T2].
  rewrite T1, T2, A2. split; reflexivity.
Qed.

(** ** Visibility and wrapping *)

Lemma addInViewItem_styles (target : HTMLElement) (currentX : Q)
    (c c' : Carousel) :
  addInViewItem target currentX c = Some c' -> styles c' = styles c.
Proof.
  unfold addInViewItem.
  destruct (Js.indexOf (inViewIndexes c) _ <? 0);
    cbn [viewWidth itemWidth set_inViewIndexes dispatchEvent set_events];
    destruct (Js.div _ _); simpl; intros H; inversion H; reflexivity.
Qed.

Lemma removeInViewItem_styles (target : HTMLElement) (c : Carousel) :
  styles (removeInViewItem target c) = styles c.
Proof.
  unfold removeInViewItem.
  destruct (Js.indexOf (inViewIndexes c) _ >? -1); reflexivity.
Qed.

(** X16: with [hideOverflowItems], [getAnimationModifier] writes the
    visibility of its target and no other style: hidden exactly when the
    wrapped position is more than one item width beyond the viewport, so an
    item in view is always visible.  Without [hideOverflowItems] it writes
    no style at all. *)
Theorem modifier_visibility (c : Carousel) (x : Q) (target : HTMLElement)
    (newX : Q) (c' : Carousel) :
  getAnimationModifier x target c = Some (newX, c') ->
  (hideOverflowItems (options c) = true ->
   styles c' !! (target, "visibility")
   = Some (Keyword
             (if Js.gt (newX - inject_Z (itemWidth c)) (inject_Z (viewWidth c))
              then "hidden" else "visible")) /\
   (forall k, k <> (target, "visibility") -> styles c' !! k = styles c !! k) /\
   (inViewRange newX c = true ->
    styles c' !! (target, "visibility") = Some (Keyword "visible"))) /\
  (hideOverflowItems (options c) = false -> styles c' = styles c).
Proof.
  unfold getAnimationModifier.
  destruct (Js.rem x _) as [nx|]; [|discriminate]. cbn [mbind option_bind].
  set (c1 := if hideOverflowItems (options c) then _ else c).
  intros Hrun.
  assert (Hst : newX = nx /\ styles c' = styles c1).
  { destruct (inViewRange nx c1).
    - destruct (addInViewItem target nx c1) as [c2|] eqn:E; [|discriminate].
      simpl in Hrun. injection Hrun as <- <-.
      split; [reflexivity|]. eapply addInViewItem_styles. exact E.
    - simpl in Hrun. injection Hrun as <- <-.
      split; [reflexivity | apply removeInViewItem_styles]. }
  destruct Hst as [-> ->]. clear Hrun. subst c1.
  split.
  - intros ->. unfold setStyle. simpl.
    split; [apply lookup_insert_eq|].
    split; [intros k Hk; apply lookup_insert_ne; congruence|].
    intros Hin. rewrite lookup_insert_eq.
    apply inViewRange_iff in Hin as [_ Hlt].
    replace (Js.gt (nx - inject_Z (itemWidth c)) (inject_Z (viewWidth c)))
      with false; [reflexivity|].
    symmetry. unfold Js.gt. apply negb_false_iff. apply Qle_bool_iff.
    rewrite inject_Z_plus in Hlt. lra.
  - intros ->. reflexivity.
Qed.

Lemma modifier_visibility_witness :
  getAnimationModifier 120 1%nat carousel5
  = Some (120%Q,
          snd (default (0%Q, carousel5)
                 (getAnimationModifier 120 1%nat carousel5))) /\
  hideOverflowItems (options carousel5) = true /\
  inViewRange 120 carousel5 = true /\
  styles (snd (default (0%Q, carousel5)
                 (getAnimationModifier 120 1%nat carousel5)))
    !! (1%nat, "visibility") = Some (Keyword "visible").
Proof.
  assert (H1 : getAnimationModifier 120 1%nat carousel5
               = Some (120%Q,
                       snd (default (0%Q, carousel5)
                              (getAnimationModifier 120 1%nat carousel5))))
    by (vm_compute; reflexivity).
  assert (H2 : hideOverflowItems (options carousel5) = true)
    by (vm_compute; reflexivity).
  assert (H3 : inViewRange 120 carousel5 = true) by (vm_compute; reflexivity).
  split; [exact H1|]. split; [exact H2|]. split; [exact H3|].
  destruct (modifier_visibility carousel5 120 1%nat _ _ H1) as [Hh _].
  destruct (Hh H2) as (_ & _ & Hv). exact (Hv H3).
Defined.

(** ** The in-view list over a run of the animation *)

Lemma indexOf_range {A : Type} `{EqDecision A} (l : list A) (x : A) :
  -1 <= Js.indexOf l x < Z.of_nat (length l).
Proof.
  unfold Js.indexOf.
  destruct (indexOf_from_spec l x 0) as [[_ ->] | (n & -> & Hn & _)].
  - lia.
  - apply lookup_lt_Some in Hn. lia.
Qed.

Lemma indexOf_negative {A : Type} `{EqDecision A} (l : list A) (x : A) :
  Js.indexOf l x < 0 -> x ∉ l.
Proof.
  unfold Js.indexOf.
  destruct (indexOf_from_spec l x 0) as [[H _] | (n & -> & _ & _)];
    [intros _; exact H | lia].
Qed.

Lemma indexOf_found {A : Type} `{EqDecision A} (l : list A) (x : A) :
  -1 < Js.indexOf l x -> x ∈ l.
Proof.
  unfold Js.indexOf.
  destruct (indexOf_from_spec l x 0) as [[_ ->] | (n & _ & Hn & _)];
    [lia|].
  intros _. eapply list_elem_of_lookup_2. exact Hn.
Qed.

Lemma addInViewItem_invariant (target : HTMLElement) (currentX : Q)
    (c c' : Carousel) :
  addInViewItem target currentX c = Some c' ->
  inViewInvariant c ->
  inViewInvariant c' /\ carouselItems c' = carouselItems c.
Proof.
  unfold addInViewItem, inViewInvariant.
  pose proof (indexOf_range (carouselItems c) target) as Hr.
  destruct (Js.indexOf (inViewIndexes c) _ <? 0) eqn:E;
    cbn [viewWidth itemWidth set_inViewIndexes dispatchEvent set_events
         inViewIndexes events];
    destruct (Js.div _ _); cbn [mbind option_bind]; intros H; inversion H;
    subst c'; clear H; unfold itemCount; simpl; intros [Hnd Hall].
  - apply Z.ltb_lt in E. apply indexOf_negative in E.
    split; [|reflexivity]. split.
    + apply NoDup_app. split; [exact Hnd|]. split.
      * intros y Hy Hy'. apply list_elem_of_singleton in Hy'. subst y.
        contradiction.
      * apply NoDup_singleton.
    + apply Forall_app. split; [exact Hall|].
      apply Forall_singleton. exact Hr.
  - split; [|reflexivity]. split; assumption.
Qed.

Lemma removeInViewItem_invariant (target : HTMLElement) (c : Carousel) :
  inViewInvariant c ->
  inViewInvariant (removeInViewItem target c) /\
  carouselItems (removeInViewItem target c) = carouselItems c.
Proof.
  unfold removeInViewItem, inViewInvariant.
  destruct (Js.indexOf (inViewIndexes c) _ >? -1) eqn:E;
    unfold itemCount; simpl; intros [Hnd Hall]; [|repeat split; assumption].
  rewrite Z.gtb_ltb in E. apply Z.ltb_lt in E. apply indexOf_found in E.
  destruct (splice1_indexOf (inViewIndexes c)
              (Js.indexOf (carouselItems c) target) Hnd E)
    as (Hout & Hnd' & Hmem).
  split; [|reflexivity]. split; [exact Hnd'|].
  rewrite Forall_forall in *. intros y Hy.
  apply Hall.
  destruct (decide (y = Js.indexOf (carouselItems c) target)) as [->|Hne];
    [exact E|].
  apply Hmem; assumption.
Qed.

Lemma getAnimationModifier_invariant (x : Q) (target : HTMLElement)
    (c c' : Carousel) (newX : Q) :
  getAnimationModifier x target c = Some (newX, c') ->
  inViewInvariant c ->
  inViewInvariant c' /\ carouselItems c' = carouselItems c.
Proof.
  unfold getAnimationModifier.
  destruct (Js.rem x _) as [nx|]; [|discriminate]. cbn [mbind option_bind].
  set (c1 := if hideOverflowItems (options c) then _ else c).
  assert (H1 : inViewIndexes c1 = inViewIndexes c /\
               carouselItems c1 = carouselItems c).
  { subst c1. destruct (hideOverflowItems (options c)); split; reflexivity. }
  destruct H1 as [Hv Hi].
  assert (Hinv : inViewInvariant c -> inViewInvariant c1).
  { unfold inViewInvariant, itemCount. rewrite Hv, Hi. auto. }
  destruct (inViewRange nx c1).
  - destruct (addInViewItem target nx c1) as [c2|] eqn:E; [|discriminate].
    simpl. intros H Hc. injection H as _ <-.
    destruct (addInViewItem_invariant _ _ _ _ E (Hinv Hc)) as [I2 Hi2].
    split; [exact I2 | congruence].
  - simpl. intros H Hc. injection H as _ <-.
    destruct (removeInViewItem_invariant target c1 (Hinv Hc)) as [I2 Hi2].
    split; [exact I2 | congruence].
Qed.

(** X17: Over every run of the animation, however long and for whatever
    elements, [inViewIndexes] never lists an index twice and only holds
    results of [indexOf] on the items (-1 for an element that is not an
    item); the item list stays as it is.  A new controller starts with the
    empty list, so this holds in every state the modifier reaches. *)
Theorem inView_invariant_run (calls : list (Q * HTMLElement))
    (c c' : Carousel) :
  modifierRun calls c = Some c' ->
  inViewInvariant c ->
  inViewInvariant c' /\ carouselItems c' = carouselItems c.
Proof.
  revert c. induction calls as [|[x target] calls IH]; intros c; simpl.
  - intros H Hc. injection H as <-. split; [exact Hc | reflexivity].
  - destruct (getAnimationModifier x target c) as [[nx c1]|] eqn:E;
      [|discriminate].
    simpl. intros H Hc.
    destruct (getAnimationModifier_invariant _ _ _ _ _ E Hc) as [I1 Hi1].
    destruct (IH c1 H I1) as [I2 Hi2].
    split; [exact I2 | congruence].
Qed.

Lemma inView_invariant_run_witness :
  inViewInvariant carousel5 /\
  inViewInvariant
    (default carousel5
       (modifierRun [(120%Q, 1%nat); (320%Q, 3%nat); (120%Q, 9%nat);
                     (420%Q, 1%nat)] carousel5)) /\
  inViewIndexes
    (default carousel5
       (modifierRun [(120%Q, 1%nat); (320%Q, 3%nat); (120%Q, 9%nat);
                     (420%Q, 1%nat)] carousel5)) = [2; -1].
Proof.
  assert (H0 : inViewInvariant carousel5).
  { split; [apply NoDup_nil_2 | apply Forall_nil_2]. }
  assert (H1 : modifierRun [(120%Q, 1%nat); (320%Q, 3%nat); (120%Q, 9%nat);
                            (420%Q, 1%nat)] carousel5
               = Some (default carousel5
                         (modifierRun [(120%Q, 1%nat); (320%Q, 3%nat);
                                       (120%Q, 9%nat); (420%Q, 1%nat)]
                            carousel5)))
    by (vm_compute; reflexivity).
  split; [exact H0|].
  split; [exact (proj1 (inView_invariant_run _ _ _ H1 H0))|].
  vm_compute. reflexivity.
Defined.

(** ** Disposal *)

(** X18: [dispose] detaches the resize listener, kills the dragger, the looping
    animation and the tweens of [goto], and ends the autoplay timer whose
    handle the controller holds.  A timer whose handle was overwritten by
    a second [startAutoplay] keeps running.  A second [dispose] changes
    nothing. *)
Theorem dispose_spec (m : Mounted) :
  resizeListener (dispose m) = false /\
  dispatcherDisposed (dispose m) = true /\
  (dragger (controller m) <> None -> draggerKilled (dispose m) = true) /\
  animation (controller (dispose m)) = None /\
  tweens (controller (dispose m)) = [] /\
  autoplayInterval (controller (dispose m)) = None /\
  (forall id, autoplayInterval (controller m) = Some id ->
     id ∉ timers (controller (dispose m))) /\
  (forall t, t ∈ timers (controller m) ->
     autoplayInterval (controller m) <> Some t ->
     t ∈ timers (controller (dispose m))) /\
  snapIndex (controller (dispose m)) = snapIndex (controller m) /\
  events (controller (dispose m)) = events (controller m) /\
  dispose (dispose m) = dispose m.
Proof.
  destruct m as [c rl dk dd].
  assert (Hstop : autoplayInterval (stopAutoplay c) = None /\
                  timers (stopAutoplay c)
                  = match autoplayInterval c with
                    | Some id => filter (fun t => t <> id) (timers c)
                    | None => timers c
                    end).
  { unfold stopAutoplay.
    destruct (autoplayInterval c) eqn:E; [split; reflexivity|].
    split; [exact E | reflexivity]. }
  destruct Hstop as (S1 & S2).
  destruct (stopAutoplay_frame c)
    as (F1 & _ & _ & _ & _ & _ & _ & F8 & F9 & F10).
  assert (Hctl : forall x,
            autoplayInterval x = None ->
            autoplayInterval
              (set_tweens []
                 (match animation x with
                  | Some _ => set_animation None x
                  | None => x
                  end)) = None /\
            animation
              (set_tweens []
                 (match animation x with
                  | Some _ => set_animation None x
                  | None => x
                  end)) = None /\
            timers
              (set_tweens []
                 (match animation x with
                  | Some _ => set_animation None x
                  | None => x
                  end)) = timers x /\
            snapIndex
              (set_tweens []
                 (match animation x with
                  | Some _ => set_animation None x
                  | None => x
                  end)) = snapIndex x /\
            events
              (set_tweens []
                 (match animation x with
                  | Some _ => set_animation None x
                  | None => x
                  end)) = events x /\
            dragger
              (set_tweens []
                 (match animation x with
                  | Some _ => set_animation None x
                  | None => x
                  end)) = dragger x /\
            stopAutoplay
              (set_tweens []
                 (match animation x with
                  | Some _ => set_animation None x
                  | None => x
                  end))
            = set_tweens []
                (match animation x with
                 | Some _ => set_animation None x
                 | None => x
                 end)).
  { intros x Hx. unfold stopAutoplay.
    destruct (animation x) eqn:Ea; simpl; rewrite ?Hx, ?Ea; repeat split. }
  destruct (Hctl (stopAutoplay c) S1) as (C1 & C2 & C3 & C4 & C5 & C6 & C7).
  unfold dispose.
  cbn [controller resizeListener draggerKilled dispatcherDisposed].
  split; [reflexivity|]. split; [reflexivity|].
  split.
  { intros Hd. rewrite F10. destruct (dragger c); [reflexivity|].
    exfalso. apply Hd. reflexivity. }
  split; [exact C2|].
  split; [reflexivity|].
  split; [exact C1|].
  split.
  { intros id Hid. rewrite C3, S2, Hid, list_elem_of_filter.
    intros [Hne _]. apply Hne. reflexivity. }
  split.
  { intros t Ht Hne. rewrite C3, S2.
    destruct (autoplayInterval c) as [id|]; [|exact Ht].
    apply list_elem_of_filter. split; [congruence | exact Ht]. }
  split; [rewrite C4; exact F1|].
  split; [rewrite C5; exact F8|].
  set (x := set_tweens []
              (match animation (stopAutoplay c) with
               | Some _ => set_animation None (stopAutoplay c)
               | None => stopAutoplay c
               end)) in *.
  rewrite C7, C6, C2, F10.
  assert (Hx : set_tweens [] x = x).
  { subst x. destruct (animation (stopAutoplay c)); reflexivity. }
  rewrite Hx. destruct (dragger c); reflexivity.
Qed.

(** A controller mounted with autoplay and disposed of right away: the
    listener is detached, the dragger killed, and the timer the constructor
    started is cleared. *)
Example dispose_mounted :
  resizeListener (mount sampleDom 0%nat 6%nat [1; 2; 3]%nat 7%nat
                    autoplayOptions) = true /\
  timers (controller (mount sampleDom 0%nat 6%nat [1; 2; 3]%nat 7%nat
                        autoplayOptions)) = [1%nat] /\
  resizeListener (dispose (mount sampleDom 0%nat 6%nat [1; 2; 3]%nat 7%nat
                             autoplayOptions)) = false /\
  draggerKilled (dispose (mount sampleDom 0%nat 6%nat [1; 2; 3]%nat 7%nat
                            autoplayOptions)) = true /\
  timers (controller (dispose (mount sampleDom 0%nat 6%nat [1; 2; 3]%nat
                                 7%nat autoplayOptions))) = [].
Proof. vm_compute. repeat split. Qed.
